(** * avalanchego 0.8.0: a shallow embedding of the core and its properties

    Each module below embeds one component of the node (sampler, alias
    registry, vertex state store, UTXO ordering, delegator verification,
    spend verification, bootstrap engine) and proves the properties the
    specification states about it.

    Conventions: Go's fixed-width integers are [Z] with the wrap-around
    written out; byte strings are [list Z] (one byte per element); Go maps are
    stdpp [gmap]s; an [error] result is an [option] or a dedicated sum. *)

From Stdlib Require Import ZArith Lia.
From stdpp Require Import base decidable option list gmap strings sorting.

Open Scope Z_scope.

(** ** Machine integers *)

Definition MaxInt64 : Z := 2 ^ 63 - 1.
Definition MaxUint32 : Z := 2 ^ 32 - 1.

(** Conversion to [uint64] and [uint32]: reduction modulo the word size. *)
Definition wrap64 (x : Z) : Z := x mod 2 ^ 64.
Definition wrap32 (x : Z) : Z := x mod 2 ^ 32.

(** Conversion of a 64-bit pattern to [int64] (two's complement). *)
Definition to_int64 (x : Z) : Z :=
  if decide (wrap64 x < 2 ^ 63) then wrap64 x else wrap64 x - 2 ^ 64.

Lemma wrap64_small x : 0 ≤ x < 2 ^ 64 → wrap64 x = x.
Proof. intros H. unfold wrap64. by apply Z.mod_small. Qed.

Lemma to_int64_small x : 0 ≤ x < 2 ^ 63 → to_int64 x = x.
Proof.
  intros H. unfold to_int64. rewrite wrap64_small by lia.
  destruct (decide (x < 2 ^ 63)); lia.
Qed.

(** ** utils/sampler: [uniformReplacer] *)

Module Sampler.

(** Outcome of a call: a value, the package's [errOutOfRange], or a
    run-time panic ([rand.Int63n] panics on a non-positive argument). *)
Inductive result (A : Type) : Type :=
| Ok (a : A)
| ErrOutOfRange
| Panic.
Arguments Ok {A} a.
Arguments ErrOutOfRange {A}.
Arguments Panic {A}.

(** [type defaultMap map[uint64]uint64] and its [get]. *)
Definition get (m : gmap Z Z) (key defaultVal : Z) : Z :=
  match m !! key with
  | Some val => val
  | None => defaultVal
  end.

Record uniformReplacer : Type := { length : Z }.

Definition Initialize (len : Z) : result uniformReplacer :=
  if decide (len > MaxInt64) then ErrOutOfRange else Ok {| length := len |}.

Section Sample.

(** The random source: [rng i n] is what the call [rand.Int63n(n)] made in
    iteration [i] of the loop returns. The only thing known about it is
    the contract of [Int63n]: for [n > 0] the result lies in [[0, n)]. *)
Variable rng : Z → Z → Z.

Definition Int63n (i n : Z) : option Z :=
  if decide (n ≤ 0) then None else Some (rng i n).

(** The body of [for i := 0; i < count; i++], iterated [todo] more times
    starting at index [i]. [results] is the slice allocated with
    [make([]uint64, count)], written at index [i]. *)
Fixpoint sample_loop (todo : nat) (s : uniformReplacer) (i : Z)
    (drawn : gmap Z Z) (results : list Z) : result (list Z) :=
  match todo with
  | O => Ok results
  | S todo' =>
      match Int63n i (to_int64 (wrap64 (length s - wrap64 i))) with
      | None => Panic
      | Some r =>
          let draw := wrap64 (wrap64 r + wrap64 i) in
          let ret := get drawn draw draw in
          let drawn' := <[draw := get drawn (wrap64 i) (wrap64 i)]> drawn in
          sample_loop todo' s (i + 1) drawn' (<[Z.to_nat i := ret]> results)
      end
  end.

Definition Sample (s : uniformReplacer) (count : Z) : result (list Z) :=
  if decide (count < 0 ∨ length s < wrap64 count) then ErrOutOfRange
  else sample_loop (Z.to_nat count) s 0 ∅ (replicate (Z.to_nat count) 0).

End Sample.

(** *** Correctness of [Sample]

    The loop performs the first [count] swaps of a Fisher-Yates shuffle of
    the virtual array [k ↦ get drawn k k]. The invariant says that the part
    of that array not yet consumed, positions [[i, L)], is an injection into
    [[0, L)] whose image is disjoint from the values already returned. *)

Section SampleSpec.

Variable rng : Z → Z → Z.
Hypothesis rng_range : ∀ i n, 0 < n → 0 ≤ rng i n < n.

Variable s : uniformReplacer.
Variable count : Z.
Hypothesis length_range : 0 ≤ length s ≤ MaxInt64.
Hypothesis count_range : 0 ≤ count ≤ length s.

Record inv (i : Z) (drawn : gmap Z Z) (results : list Z) : Prop := {
  inv_i : 0 ≤ i ≤ count;
  inv_len : Z.of_nat (Datatypes.length results) = count;
  inv_range : ∀ k, i ≤ k < length s → 0 ≤ get drawn k k < length s;
  inv_inj : ∀ k1 k2, i ≤ k1 < length s → i ≤ k2 < length s →
            get drawn k1 k1 = get drawn k2 k2 → k1 = k2;
  inv_out_range : Forall (λ x, 0 ≤ x < length s) (take (Z.to_nat i) results);
  inv_out_nodup : NoDup (take (Z.to_nat i) results);
  inv_out_fresh : ∀ k, i ≤ k < length s →
                  get drawn k k ∉ take (Z.to_nat i) results
}.

Lemma get_insert (m : gmap Z Z) (j v k : Z) :
  get (<[j := v]> m) k k = if decide (j = k) then v else get m k k.
Proof.
  unfold get. rewrite lookup_insert. by destruct (decide (j = k)).
Qed.

Lemma inv_init : inv 0 ∅ (replicate (Z.to_nat count) 0).
Proof.
  split; simpl.
  - lia.
  - rewrite length_replicate. lia.
  - intros k Hk. unfold get. rewrite lookup_empty. lia.
  - intros k1 k2 _ _. unfold get. by rewrite !lookup_empty.
  - rewrite take_0. constructor.
  - rewrite take_0. constructor.
  - intros k _. rewrite take_0. apply not_elem_of_nil.
Qed.

Lemma take_insert_succ (l : list Z) (n : nat) (x : Z) :
  (n < Datatypes.length l)%nat → take (S n) (<[n := x]> l) = take n l ++ [x].
Proof.
  intros Hn.
  rewrite (take_S_r _ _ x) by (by apply list_lookup_insert_eq).
  by rewrite take_insert_ge by lia.
Qed.

Lemma inv_step i drawn results r :
  inv i drawn results → i < count → 0 ≤ r < length s - i →
  inv (i + 1) (<[r + i := get drawn i i]> drawn)
      (<[Z.to_nat i := get drawn (r + i) (r + i)]> results).
Proof.
  intros [Hi Hlen Hrange Hinj Hout Hnodup Hfresh] Hlt Hr.
  assert (Hpre : take (Z.to_nat (i + 1))
                   (<[Z.to_nat i := get drawn (r + i) (r + i)]> results)
                 = take (Z.to_nat i) results ++ [get drawn (r + i) (r + i)]).
  { replace (Z.to_nat (i + 1)) with (S (Z.to_nat i)) by lia.
    apply take_insert_succ. lia. }
  split.
  - lia.
  - rewrite length_insert. lia.
  - intros k Hk. rewrite get_insert. case_decide; apply Hrange; lia.
  - intros k1 k2 Hk1 Hk2. rewrite !get_insert.
    repeat case_decide; intros Heq; try lia.
    + apply Hinj in Heq; lia.
    + apply Hinj in Heq; lia.
    + apply Hinj in Heq; lia.
  - rewrite Hpre. apply Forall_app. split; [done|].
    constructor; [|constructor]. apply Hrange. lia.
  - rewrite Hpre. apply NoDup_app. split_and!.
    + done.
    + intros x Hx Hx'. apply list_elem_of_singleton in Hx'. subst x.
      revert Hx. apply Hfresh. lia.
    + apply NoDup_singleton.
  - intros k Hk. rewrite Hpre, get_insert. rewrite elem_of_app.
    intros [Hin | Hin%list_elem_of_singleton].
    + revert Hin. case_decide; apply Hfresh; lia.
    + revert Hin. case_decide; intros Heq; apply Hinj in Heq; lia.
Qed.

Lemma sample_loop_ok todo : ∀ i drawn results,
  inv i drawn results → Z.of_nat todo = count - i →
  ∃ l drawn', sample_loop rng todo s i drawn results = Ok l ∧ inv count drawn' l.
Proof.
  assert (H63 : MaxInt64 < 2 ^ 63) by (unfold MaxInt64; lia).
  assert (H64 : (2:Z) ^ 63 < 2 ^ 64) by lia.
  induction todo as [|todo IH]; intros i drawn results Hinv Htodo; simpl.
  - replace count with i by lia. eauto.
  - pose proof (inv_i _ _ _ Hinv) as Hi.
    rewrite (wrap64_small i) by lia.
    rewrite (wrap64_small (length s - i)) by lia.
    rewrite to_int64_small by lia.
    unfold Int63n. case_decide; [lia|].
    pose proof (rng_range i (length s - i) ltac:(lia)) as Hr.
    rewrite (wrap64_small (rng i _)) by lia.
    rewrite wrap64_small by lia.
    apply IH; [|lia].
    by apply inv_step; [|lia|].
Qed.

End SampleSpec.

(** A concrete run: five elements, three draws, a source that always
    returns the largest admissible value. *)
Example Sample_5_3 :
  Sample (λ _ n, n - 1) {| length := 5 |} 3 = Ok [4; 0; 1].
Proof. reflexivity. Qed.

Example Sample_too_many :
  Sample (λ _ n, n - 1) {| length := 5 |} 6 = ErrOutOfRange.
Proof. reflexivity. Qed.

(** C9. For every length [L] accepted by [Initialize] (so [L ≤ MaxInt64])
    and every [count] of Go type [int], [Sample count] returns
    [errOutOfRange] exactly when [count < 0] or [count > L]; otherwise,
    whatever the random source returns within the contract of
    [rand.Int63n], it returns exactly [count] pairwise distinct values,
    each in [[0, L)]. *)
Theorem Sample_without_replacement
    (rng : Z → Z → Z) (L count : Z) (s : uniformReplacer) :
  (∀ i n, 0 < n → 0 ≤ rng i n < n) →
  0 ≤ L < 2 ^ 64 →
  - 2 ^ 63 ≤ count < 2 ^ 63 →
  Initialize L = Ok s →
  (Sample rng s count = ErrOutOfRange ↔ count < 0 ∨ count > L) ∧
  (¬ (count < 0 ∨ count > L) →
   ∃ l, Sample rng s count = Ok l ∧
        Z.of_nat (Datatypes.length l) = count ∧
        NoDup l ∧
        Forall (λ x, 0 ≤ x < L) l).
Proof.
  intros Hrng HL Hcount Hinit.
  unfold Initialize in Hinit. case_decide as Hmax; [done|].
  injection Hinit as <-. simpl in *.
  assert (Hgood : ¬ (count < 0 ∨ count > L) →
    ∃ l, Sample rng {| length := L |} count = Ok l ∧
         Z.of_nat (Datatypes.length l) = count ∧ NoDup l ∧
         Forall (λ x, 0 ≤ x < L) l).
  { intros Hin. unfold Sample; simpl.
    rewrite wrap64_small by lia.
    case_decide; [lia|].
    assert (Hlen : 0 ≤ length {| length := L |} ≤ MaxInt64) by (simpl; lia).
    assert (Hcnt : 0 ≤ count ≤ length {| length := L |}) by (simpl; lia).
    destruct (sample_loop_ok rng Hrng _ count Hlen Hcnt (Z.to_nat count)
                0 ∅ (replicate (Z.to_nat count) 0))
      as (l & drawn' & Hl & Hinv); [by apply inv_init | lia |].
    exists l. split; [done|].
    destruct Hinv as [_ Hlen' _ _ Hout Hnodup _]. simpl in *.
    rewrite firstn_all2 in Hout, Hnodup by lia.
    done. }
  split; [split|done].
  - intros Herr. destruct (decide (count < 0 ∨ count > L)) as [|Hin]; [done|].
    destruct (Hgood Hin) as (l & Hl & _). congruence.
  - intros Hbad. unfold Sample; simpl.
    case_decide as Hc; [done|]. exfalso. apply Hc.
    destruct Hbad as [|Hgt]; [by left|].
    destruct (decide (count < 0)); [by left|right].
    rewrite wrap64_small by lia. lia.
Qed.

Lemma Sample_without_replacement_witness :
  ∃ l, Sample (λ i n, (7 * i + 3) mod n) {| length := 6 |} 4 = Ok l ∧
       Z.of_nat (Datatypes.length l) = 4 ∧
       NoDup l ∧
       Forall (λ x, 0 ≤ x < 6) l.
Proof.
  destruct (Sample_without_replacement (λ i n, (7 * i + 3) mod n) 6 4
              {| length := 6 |}) as [_ Hok].
  - intros i n Hn. apply Z.mod_pos_bound. lia.
  - lia.
  - lia.
  - reflexivity.
  - apply Hok. lia.
Defined.

End Sampler.

(** ** Identifiers

    An [ids.ID] wraps a 32-byte array and an [ids.ShortID] a 20-byte array;
    both are used as map keys through [Key()]. They are embedded as the
    list of their bytes. *)

Abbreviation ID := (list Z).
Abbreviation ShortID := (list Z).

(** ** ids: [Aliaser] *)

Module Aliaser.

Record Aliaser : Type := {
  dealias : gmap string ID;
  aliases : gmap ID (list string)
}.

Inductive error : Type :=
| ErrNoID (alias : string)       (* "there is no ID with alias %s" *)
| ErrNoAlias (id : ID)           (* "there is no alias for ID %s" *)
| ErrAliasUsed (alias : string). (* "%s is already used as an alias for an ID" *)

Definition Initialize : Aliaser := {| dealias := ∅; aliases := ∅ |}.

Definition Lookup (a : Aliaser) (alias : string) : ID + error :=
  match dealias a !! alias with
  | Some id => inl id
  | None => inr (ErrNoID alias)
  end.

(** Indexing a Go map at a missing key yields the zero value, here the
    nil slice. *)
Definition Aliases (a : Aliaser) (id : ID) : list string :=
  default [] (aliases a !! id).

Definition PrimaryAlias (a : Aliaser) (id : ID) : string + error :=
  match aliases a !! id with
  | Some (alias :: _) => inl alias
  | _ => inr (ErrNoAlias id)
  end.

(** [Alias] and [RemoveAliases] mutate the receiver: the embedding
    returns the registry after the call. *)
Definition Alias (a : Aliaser) (id : ID) (alias : string)
    : Aliaser * option error :=
  match dealias a !! alias with
  | Some _ => (a, Some (ErrAliasUsed alias))
  | None =>
      ({| dealias := <[alias := id]> (dealias a);
          aliases := <[id := Aliases a id ++ [alias]]> (aliases a) |},
       None)
  end.

Definition RemoveAliases (a : Aliaser) (id : ID) : Aliaser :=
  let als := Aliases a id in
  {| aliases := delete id (aliases a);
     dealias := foldl (λ m alias, delete alias m) (dealias a) als |}.

(** *** Registries that can arise *)

Inductive reachable : Aliaser → Prop :=
| reach_init : reachable Initialize
| reach_alias a id alias : reachable a → reachable (Alias a id alias).1
| reach_remove a id : reachable a → reachable (RemoveAliases a id).

(** The two maps describe the same relation. *)
Definition consistent (a : Aliaser) : Prop :=
  ∀ alias id, dealias a !! alias = Some id ↔ alias ∈ Aliases a id.

Lemma lookup_foldl_delete (m : gmap string ID) (l : list string) (k : string) :
  foldl (λ m alias, delete alias m) m l !! k
  = if decide (k ∈ l) then None else m !! k.
Proof.
  revert m. induction l as [|x l IH]; intros m; cbn [foldl].
  - case_decide as H; [by apply elem_of_nil in H | done].
  - rewrite IH. destruct (decide (k = x)) as [->|Hne].
    + rewrite lookup_delete_eq.
      rewrite (decide_True (P := x ∈ x :: l)) by (by apply elem_of_cons; left).
      by destruct (decide (x ∈ l)).
    + rewrite lookup_delete_ne by done.
      destruct (decide (k ∈ l)) as [Hin|Hin].
      * by rewrite decide_True by (by apply elem_of_cons; right).
      * by rewrite decide_False by (by intros [?|?]%elem_of_cons).
Qed.

Lemma Aliases_insert d a id l id' :
  Aliases {| dealias := d; aliases := <[id := l]> (aliases a) |} id'
  = if decide (id = id') then l else Aliases a id'.
Proof. unfold Aliases; simpl. rewrite lookup_insert. by case_decide. Qed.

Lemma Aliases_delete d a id id' :
  Aliases {| dealias := d; aliases := delete id (aliases a) |} id'
  = if decide (id = id') then [] else Aliases a id'.
Proof. unfold Aliases; simpl. rewrite lookup_delete. by case_decide. Qed.

Lemma consistent_init : consistent Initialize.
Proof.
  intros alias id. unfold Aliases; simpl. rewrite !lookup_empty; simpl.
  split; [done | by intros ?%elem_of_nil].
Qed.

Lemma consistent_Alias a id alias :
  consistent a → consistent (Alias a id alias).1.
Proof.
  intros Hc. unfold Alias.
  destruct (dealias a !! alias) as [old|] eqn:Hfree; [done|]; simpl.
  intros x i. rewrite Aliases_insert. cbn [dealias]. rewrite lookup_insert.
  destruct (decide (alias = x)) as [->|Hx], (decide (id = i)) as [->|Hi];
    rewrite ?elem_of_app, ?list_elem_of_singleton.
  - naive_solver.
  - split; [naive_solver|]. intros Hin. apply Hc in Hin. congruence.
  - destruct (Hc x i) as [Hto Hfrom].
    split; [by left; apply Hto | by intros [Hin|Heq]; [apply Hfrom|]].
  - apply Hc.
Qed.

Lemma consistent_RemoveAliases a id :
  consistent a → consistent (RemoveAliases a id).
Proof.
  intros Hc x i. unfold RemoveAliases.
  rewrite Aliases_delete. cbn [dealias]. rewrite lookup_foldl_delete.
  destruct (decide (id = i)) as [->|Hi].
  - split; [|by intros ?%elem_of_nil].
    case_decide as Hin; [done|]. intros Hd. by apply Hc in Hd.
  - destruct (Hc x i) as [Hto Hfrom].
    case_decide as Hin; [|done].
    apply Hc in Hin. split; [done|]. intros Hd%Hfrom. congruence.
Qed.

Lemma reachable_consistent a : reachable a → consistent a.
Proof.
  induction 1; auto using consistent_init, consistent_Alias,
    consistent_RemoveAliases.
Qed.

(** A registry with two chains, as the node sets it up at start. *)
Definition two_chains : Aliaser :=
  (Alias (Alias (Alias Initialize [1] "X").1 [2] "P").1 [1] "avm").1.

Example two_chains_run :
  Lookup two_chains "avm" = inl [1] ∧
  Aliases two_chains [1] = ["X"; "avm"]%string ∧
  PrimaryAlias two_chains [1] = inl "X"%string ∧
  Alias two_chains [2] "X" = (two_chains, Some (ErrAliasUsed "X")) ∧
  Lookup (RemoveAliases two_chains [1]) "X" = inr (ErrNoID "X") ∧
  Lookup (RemoveAliases two_chains [1]) "P" = inl [2].
Proof. repeat split; vm_compute; reflexivity. Qed.

(** C10. In every registry that can arise from [Initialize] by calls of
    [Alias] and [RemoveAliases], no two IDs hold the same alias. [Alias id
    alias] returns an error and leaves the registry unchanged when [alias]
    is already registered for some ID, and succeeds otherwise; after a
    successful [Alias id alias], [Lookup alias] returns [id] and [alias] is
    among [Aliases id]. [RemoveAliases id] leaves [id] without aliases, and
    [Lookup] of each alias [id] had returns an error. *)
Theorem Aliaser_no_shared_alias (a : Aliaser) :
  reachable a →
  (∀ id1 id2 alias,
     alias ∈ Aliases a id1 → alias ∈ Aliases a id2 → id1 = id2) ∧
  (∀ id id0 alias,
     Lookup a alias = inl id0 →
     Alias a id alias = (a, Some (ErrAliasUsed alias))) ∧
  (∀ id alias e,
     Lookup a alias = inr e →
     (Alias a id alias).2 = None ∧
     Lookup (Alias a id alias).1 alias = inl id ∧
     alias ∈ Aliases (Alias a id alias).1 id) ∧
  (∀ id alias,
     Aliases (RemoveAliases a id) id = [] ∧
     (alias ∈ Aliases a id →
      Lookup (RemoveAliases a id) alias = inr (ErrNoID alias))).
Proof.
  intros Hreach. pose proof (reachable_consistent a Hreach) as Hc.
  split_and!.
  - intros id1 id2 alias H1%Hc H2%Hc. congruence.
  - intros id id0 alias. unfold Lookup, Alias.
    by destruct (dealias a !! alias).
  - intros id alias e. unfold Lookup at 1, Alias.
    destruct (dealias a !! alias) eqn:Hfree; [done|]. intros _.
    split_and!; [done| |].
    + unfold Lookup; simpl. by rewrite lookup_insert_eq.
    + cbn [fst]. rewrite Aliases_insert, decide_True by done.
      apply elem_of_app. right. by apply list_elem_of_singleton.
  - intros id alias. unfold RemoveAliases. split.
    + by rewrite Aliases_delete, decide_True.
    + intros Hin. unfold Lookup; cbn [dealias].
      by rewrite lookup_foldl_delete, decide_True.
Qed.

Lemma Aliaser_no_shared_alias_witness :
  (∀ id1 id2 alias,
     alias ∈ Aliases two_chains id1 → alias ∈ Aliases two_chains id2 →
     id1 = id2) ∧
  (∀ id id0 alias,
     Lookup two_chains alias = inl id0 →
     Alias two_chains id alias = (two_chains, Some (ErrAliasUsed alias))) ∧
  (∀ id alias e,
     Lookup two_chains alias = inr e →
     (Alias two_chains id alias).2 = None ∧
     Lookup (Alias two_chains id alias).1 alias = inl id ∧
     alias ∈ Aliases (Alias two_chains id alias).1 id) ∧
  (∀ id alias,
     Aliases (RemoveAliases two_chains id) id = [] ∧
     (alias ∈ Aliases two_chains id →
      Lookup (RemoveAliases two_chains id) alias = inr (ErrNoID alias))).
Proof.
  apply (Aliaser_no_shared_alias two_chains).
  unfold two_chains. repeat apply reach_alias. apply reach_init.
Defined.

End Aliaser.

(** ** utils/hashing and utils/wrappers: big-endian packing, SHA-256 *)

Module Hashing.

(** Big-endian encoding of [x] on [n] bytes, most significant byte first
    ([binary.BigEndian.PutUint32], [PutUint64]). *)
Fixpoint be_bytes (n : nat) (x : Z) : list Z :=
  match n with
  | O => []
  | S n' => be_bytes n' (x / 256) ++ [x mod 256]
  end.

(** The number a big-endian byte string denotes ([binary.BigEndian.Uint32]). *)
Definition be_value (bs : list Z) : Z :=
  foldl (λ acc b, acc * 256 + b) 0 bs.

Definition K : list Z :=
  [ 1116352408; 1899447441; 3049323471; 3921009573; 961987163; 1508970993;
    2453635748; 2870763221; 3624381080; 310598401; 607225278; 1426881987;
    1925078388; 2162078206; 2614888103; 3248222580; 3835390401; 4022224774;
    264347078; 604807628; 770255983; 1249150122; 1555081692; 1996064986;
    2554220882; 2821834349; 2952996808; 3210313671; 3336571891; 3584528711;
    113926993; 338241895; 666307205; 773529912; 1294757372; 1396182291;
    1695183700; 1986661051; 2177026350; 2456956037; 2730485921; 2820302411;
    3259730800; 3345764771; 3516065817; 3600352804; 4094571909; 275423344;
    430227734; 506948616; 659060556; 883997877; 958139571; 1322822218;
    1537002063; 1747873779; 1955562222; 2024104815; 2227730452; 2361852424;
    2428436474; 2756734187; 3204031479; 3329325298 ].

Definition H0 : list Z :=
  [ 1779033703; 3144134277; 1013904242; 2773480762;
    1359893119; 2600822924; 528734635; 1541459225 ].

Definition add32 (x y : Z) : Z := wrap32 (x + y).
Definition rotr (n x : Z) : Z :=
  wrap32 (Z.lor (Z.shiftr x n) (Z.shiftl x (32 - n))).
Definition not32 (x : Z) : Z := Z.lxor x MaxUint32.

Definition Ch (x y z : Z) : Z := Z.lxor (Z.land x y) (Z.land (not32 x) z).
Definition Maj (x y z : Z) : Z :=
  Z.lxor (Z.lxor (Z.land x y) (Z.land x z)) (Z.land y z).
Definition Sigma0 (x : Z) : Z :=
  Z.lxor (Z.lxor (rotr 2 x) (rotr 13 x)) (rotr 22 x).
Definition Sigma1 (x : Z) : Z :=
  Z.lxor (Z.lxor (rotr 6 x) (rotr 11 x)) (rotr 25 x).
Definition sigma0 (x : Z) : Z :=
  Z.lxor (Z.lxor (rotr 7 x) (rotr 18 x)) (Z.shiftr x 3).
Definition sigma1 (x : Z) : Z :=
  Z.lxor (Z.lxor (rotr 17 x) (rotr 19 x)) (Z.shiftr x 10).

(** Padding: a [0x80] byte, zeros up to 56 modulo 64, the bit length on
    eight bytes. *)
Definition pad (msg : list Z) : list Z :=
  let len := Z.of_nat (Datatypes.length msg) in
  msg ++ [128] ++ replicate (Z.to_nat ((55 - len) mod 64)) 0
      ++ be_bytes 8 (8 * len).

(** Cut a byte string into pieces of [size] bytes. *)
Fixpoint chunks (pieces size : nat) (bs : list Z) : list (list Z) :=
  match pieces with
  | O => []
  | S pieces' => take size bs :: chunks pieces' size (drop size bs)
  end.

(** The message schedule: sixteen words of the block, extended to 64. *)
Fixpoint schedule (more : nat) (w : list Z) : list Z :=
  match more with
  | O => w
  | S more' =>
      let t := Datatypes.length w in
      let at_ k := nth (t - k) w 0 in
      schedule more'
        (w ++ [add32 (add32 (sigma1 (at_ 2%nat)) (at_ 7%nat))
                     (add32 (sigma0 (at_ 15%nat)) (at_ 16%nat))])
  end.

Definition round (st : list Z) (kw : Z * Z) : list Z :=
  match st with
  | [a; b; c; d; e; f; g; h] =>
      let t1 := add32 (add32 (add32 h (Sigma1 e)) (Ch e f g))
                      (add32 kw.1 kw.2) in
      let t2 := add32 (Sigma0 a) (Maj a b c) in
      [add32 t1 t2; a; b; c; add32 d t1; e; f; g]
  | _ => st
  end.

Definition compress (h : list Z) (block : list Z) : list Z :=
  let w := schedule 48 (be_value <$> chunks 16 4 block) in
  zip_with add32 h (foldl round h (zip K w)).

(** [hashing.ComputeHash256]: the SHA-256 digest, 32 bytes. *)
Definition ComputeHash256 (msg : list Z) : list Z :=
  let padded := pad msg in
  let blocks := chunks (Datatypes.length padded / 64) 64 padded in
  foldl compress H0 blocks ≫= be_bytes 4.

(** The test vectors of FIPS 180-2 for the empty string and ["abc"]. *)
Example ComputeHash256_empty :
  ComputeHash256 [] =
  [227; 176; 196; 66; 152; 252; 28; 20; 154; 251; 244; 200; 153; 111; 185;
   36; 39; 174; 65; 228; 100; 155; 147; 76; 164; 149; 153; 27; 120; 82;
   184; 85].
Proof. vm_compute. reflexivity. Qed.

Example ComputeHash256_abc :
  ComputeHash256 [97; 98; 99] =
  [186; 120; 22; 191; 143; 1; 207; 234; 65; 65; 64; 222; 93; 174; 34; 35;
   176; 3; 97; 163; 150; 23; 122; 156; 180; 16; 255; 97; 242; 0; 21; 173].
Proof. vm_compute. reflexivity. Qed.

End Hashing.

(** ** Byte strings and their order *)

Module Bytes.

(** [bytes.Compare]: -1, 0 or +1 as [a] is lexicographically below, equal
    to or above [b]. *)
Fixpoint Compare (a b : list Z) : Z :=
  match a, b with
  | [], [] => 0
  | [], _ :: _ => -1
  | _ :: _, [] => 1
  | x :: a', y :: b' =>
      if decide (x < y) then -1
      else if decide (y < x) then 1
      else Compare a' b'
  end.

(** The lexicographic order on byte strings, as a relation. *)
Inductive lt : list Z → list Z → Prop :=
| lt_nil y ys : lt [] (y :: ys)
| lt_head x y xs ys : x < y → lt (x :: xs) (y :: ys)
| lt_tail x xs ys : lt xs ys → lt (x :: xs) (x :: ys).

Lemma Compare_lt a b : Compare a b = -1 ↔ lt a b.
Proof.
  revert b. induction a as [|x a IH]; intros [|y b]; simpl.
  - split; [done | inversion 1].
  - split; [constructor | done].
  - split; [done | inversion 1].
  - repeat case_decide.
    + split; [by constructor | done].
    + split; [done|]. inversion 1; subst; lia.
    + assert (x = y) as -> by lia. rewrite IH.
      split; [by constructor|]. inversion 1; subst; [lia | done].
Qed.

Lemma Compare_eq a b : Compare a b = 0 ↔ a = b.
Proof.
  revert b. induction a as [|x a IH]; intros [|y b]; simpl; try done.
  repeat case_decide.
  - split; [done|]. intros [= ]. lia.
  - split; [done|]. intros [= ]. lia.
  - assert (x = y) as -> by lia. rewrite IH.
    split; [by intros -> | by intros [= ]].
Qed.

Lemma lt_irrefl a : ¬ lt a a.
Proof. induction a; inversion 1; subst; [lia | auto]. Qed.

Lemma lt_trans a b c : lt a b → lt b c → lt a c.
Proof.
  intros Hab. revert c.
  induction Hab as [y ys|x y xs ys Hxy|x xs ys Hlt IH];
    intros c Hbc; inversion Hbc; subst.
  - apply lt_nil.
  - apply lt_nil.
  - apply lt_head. lia.
  - by apply lt_head.
  - by apply lt_head.
  - apply lt_tail. by apply IH.
Qed.

End Bytes.

(** ** ids: [Empty] and [Prefix] *)

Module IDs.

Definition Empty : ID := replicate 32 0.

(** Modelled from the spec: [ids.ID.Prefix] is not among the sources. The
    data model gives [prefix(id, u64) = first-32-bytes(hash(id ‖ u64))],
    with the [u64] big-endian as every integer on the wire; the hash is
    [hashing.ComputeHash256]. *)
Definition Prefix (id : ID) (prefix : Z) : ID :=
  take 32 (Hashing.ComputeHash256 (id ++ Hashing.be_bytes 8 prefix)).

End IDs.

(** ** utils: [IsSortedAndUnique] *)

Module Utils.

(** The part of [sort.Interface] that the check uses. [Less] indexes the
    underlying slice and panics ([None]) out of range. *)
Record Interface : Type := {
  Len : nat;
  Less : nat → nat → option bool
}.

(** Modelled from the spec: [utils.IsSortedAndUnique] is not among the
    sources. "Sorted and unique by a canonical order" is checked on
    adjacent elements, each strictly below its successor:
    [for i := data.Len() - 2; i >= 0; i-- { if !data.Less(i, i+1) { return
    false } }; return true]. [IsSortedAndUnique_from data k] runs the
    iterations [i = k - 1, ..., 0]. *)
Fixpoint IsSortedAndUnique_from (data : Interface) (k : nat) : option bool :=
  match k with
  | O => Some true
  | S i =>
      match Less data i (S i) with
      | None => None
      | Some false => Some false
      | Some true => IsSortedAndUnique_from data i
      end
  end.

Definition IsSortedAndUnique (data : Interface) : option bool :=
  IsSortedAndUnique_from data (Len data - 1).

Lemma IsSortedAndUnique_from_true data k :
  IsSortedAndUnique_from data k = Some true
  ↔ ∀ i, (i < k)%nat → Less data i (S i) = Some true.
Proof.
  induction k as [|k IH]; simpl.
  - split; [intros _ i; lia | done].
  - destruct (Less data k (S k)) as [[]|] eqn:Hk.
    + rewrite IH. split.
      * intros H i Hi. destruct (decide (i = k)) as [->|]; [done|].
        apply H. lia.
      * intros H i Hi. apply H. lia.
    + split; [done|]. intros H. specialize (H k ltac:(lia)). congruence.
    + split; [done|]. intros H. specialize (H k ltac:(lia)). congruence.
Qed.

Lemma IsSortedAndUnique_from_total data k :
  (∀ i, (i < k)%nat → is_Some (Less data i (S i))) →
  is_Some (IsSortedAndUnique_from data k).
Proof.
  induction k as [|k IH]; simpl; intros H; [done|].
  destruct (H k ltac:(lia)) as [[] ->]; [|done].
  apply IH. intros i Hi. apply H. lia.
Qed.

(** Adjacent elements of a list are related exactly when it is [Sorted]. *)
Lemma Sorted_adjacent {A} (R : relation A) (l : list A) :
  Sorted R l ↔ ∀ i u v, l !! i = Some u → l !! S i = Some v → R u v.
Proof.
  induction l as [|x l IH].
  - split; [intros _ i u v; by rewrite lookup_nil | constructor].
  - split.
    + intros [Hs Hhd]%Sorted_inv [|i] u v Hu Hv; simpl in *.
      * injection Hu as <-. destruct l; [done|].
        injection Hv as <-. by apply HdRel_inv in Hhd.
      * by apply (proj1 IH Hs i).
    + intros H. constructor.
      * apply IH. intros i u v Hu Hv. by apply (H (S i)).
      * destruct l as [|y l]; constructor. by apply (H O).
Qed.

End Utils.

(** ** vms/components/djtx: [UTXOID] and its order *)

Module UTXOIDs.

Record UTXOID : Type := {
  TxID : ID;
  OutputIndex : Z;      (* uint32 *)
  Symbol : bool;
  id : option ID        (* cache of [InputID]; [None] is the zero ID *)
}.

Definition InputSource (utxo : UTXOID) : ID * Z :=
  (TxID utxo, OutputIndex utxo).

(** [InputID] fills the cache on first use: it returns the receiver after
    the call and the ID. *)
Definition InputID (utxo : UTXOID) : UTXOID * ID :=
  match id utxo with
  | Some i => (utxo, i)
  | None =>
      let i := IDs.Prefix (TxID utxo) (OutputIndex utxo) in
      ({| TxID := TxID utxo; OutputIndex := OutputIndex utxo;
          Symbol := Symbol utxo; id := Some i |}, i)
  end.

Definition Symbolic (utxo : UTXOID) : bool := Symbol utxo.

(** [innerSortUTXOIDs.Less], on the elements at the two indices. *)
Definition less (u v : UTXOID) : bool :=
  let '(iID, iIndex) := InputSource u in
  let '(jID, jIndex) := InputSource v in
  match Bytes.Compare iID jID with
  | -1 => true
  | 0 => bool_decide (iIndex < jIndex)
  | _ => false
  end.

Definition innerSortUTXOIDs (utxos : list UTXOID) : Utils.Interface :=
  {| Utils.Len := Datatypes.length utxos;
     Utils.Less i j :=
       u ← utxos !! i; v ← utxos !! j; Some (less u v) |}.

Definition IsSortedAndUniqueUTXOIDs (utxos : list UTXOID) : option bool :=
  Utils.IsSortedAndUnique (innerSortUTXOIDs utxos).

(** *** The order the code checks: by input source *)

Definition source_lt (u v : UTXOID) : Prop :=
  Bytes.lt (TxID u) (TxID v) ∨
  (TxID u = TxID v ∧ OutputIndex u < OutputIndex v).

(** *** The order the specification names: by [(assetID, inputID)]

    All UTXOIDs of one operation belong to the operation's asset. *)
Definition key_lt (k1 k2 : ID * ID) : Prop :=
  Bytes.lt k1.1 k2.1 ∨ (k1.1 = k2.1 ∧ Bytes.lt k1.2 k2.2).

Definition canonical_key (assetID : ID) (u : UTXOID) : ID * ID :=
  (assetID, (InputID u).2).

Definition canonical_lt (assetID : ID) (u v : UTXOID) : Prop :=
  key_lt (canonical_key assetID u) (canonical_key assetID v).

Lemma less_source_lt u v : less u v = true ↔ source_lt u v.
Proof.
  unfold less, source_lt, InputSource.
  pose proof (Bytes.Compare_lt (TxID u) (TxID v)) as Hlt.
  pose proof (Bytes.Compare_eq (TxID u) (TxID v)) as Heq.
  destruct (Bytes.Compare (TxID u) (TxID v)) as [|p|p] eqn:Hc.
  - rewrite bool_decide_eq_true. split.
    + intros H. right. split; [by apply Heq | done].
    + intros [H%Hlt|[_ H]]; [done | done].
  - split; [done|]. intros [H%Hlt|[H%Heq _]]; done.
  - destruct p; try (split; [done|]; intros [H%Hlt|[H%Heq _]]; done).
    split; [intros _; left; by apply Hlt | done].
Qed.

#[local] Instance source_lt_trans : Transitive source_lt.
Proof.
  intros u v w [H1|[H1 H1']] [H2|[H2 H2']]; unfold source_lt.
  - left. by eapply Bytes.lt_trans.
  - left. by rewrite <- H2.
  - left. by rewrite H1.
  - right. split; [congruence | lia].
Qed.

Lemma IsSortedAndUniqueUTXOIDs_Sorted utxos :
  IsSortedAndUniqueUTXOIDs utxos = Some true ↔ Sorted source_lt utxos.
Proof.
  unfold IsSortedAndUniqueUTXOIDs, Utils.IsSortedAndUnique.
  rewrite Utils.IsSortedAndUnique_from_true, Utils.Sorted_adjacent.
  cbn [Utils.Len Utils.Less innerSortUTXOIDs].
  split.
  - intros H i u v Hu Hv.
    assert (i < Datatypes.length utxos - 1)%nat as Hi.
    { apply lookup_lt_Some in Hv. lia. }
    specialize (H i Hi). rewrite Hu, Hv in H; simpl in H.
    apply less_source_lt. congruence.
  - intros H i Hi.
    destruct (lookup_lt_is_Some_2 utxos i ltac:(lia)) as [u Hu].
    destruct (lookup_lt_is_Some_2 utxos (S i) ltac:(lia)) as [v Hv].
    rewrite Hu, Hv; simpl. f_equal. apply less_source_lt. by eapply H.
Qed.

Lemma IsSortedAndUniqueUTXOIDs_total utxos :
  is_Some (IsSortedAndUniqueUTXOIDs utxos).
Proof.
  apply Utils.IsSortedAndUnique_from_total.
  cbn [Utils.Len Utils.Less innerSortUTXOIDs]. intros i Hi.
  destruct (lookup_lt_is_Some_2 utxos i ltac:(lia)) as [u ->].
  destruct (lookup_lt_is_Some_2 utxos (S i) ltac:(lia)) as [v ->].
  by eexists.
Qed.

(** The lists of the operation tests: out of order, and a single element. *)
Definition utxo (index : Z) : UTXOID :=
  {| TxID := IDs.Empty; OutputIndex := index; Symbol := false; id := None |}.

Example UTXOIDs_not_sorted :
  IsSortedAndUniqueUTXOIDs [utxo 1; utxo 0] = Some false.
Proof. reflexivity. Qed.

Example UTXOIDs_single : IsSortedAndUniqueUTXOIDs [utxo 1] = Some true.
Proof. reflexivity. Qed.

Example UTXOIDs_duplicate :
  IsSortedAndUniqueUTXOIDs [utxo 1; utxo 1] = Some false.
Proof. reflexivity. Qed.

(** C6, as stated, fails. The outputs 2 and 3 of the transaction
    [ids.Empty] are accepted in that order, yet their input IDs, the
    hashes [97 56 74 ca...] and [20 b7 3c d8...], are in decreasing order:
    the check never computes an input ID. *)
Lemma UTXOIDs_accepted_not_canonical :
  IsSortedAndUniqueUTXOIDs [utxo 2; utxo 3] = Some true ∧
  ¬ StronglySorted (canonical_lt IDs.Empty) [utxo 2; utxo 3].
Proof.
  split; [reflexivity|].
  intros Hs. apply StronglySorted_inv in Hs as [_ Hall].
  apply Forall_cons in Hall as [[Hasset|[_ Hid]] _].
  - by apply Bytes.lt_irrefl in Hasset.
  - apply Bytes.Compare_lt in Hid. vm_compute in Hid. discriminate.
Qed.

(** C6, amended. [IsSortedAndUniqueUTXOIDs] accepts a list exactly when it
    is strictly increasing by input source, that is by transaction ID
    bytes and then by output index; every other list is rejected, and
    the check never panics. *)
Theorem IsSortedAndUniqueUTXOIDs_source_order (utxos : list UTXOID) :
  (IsSortedAndUniqueUTXOIDs utxos = Some true
   ↔ StronglySorted source_lt utxos) ∧
  (¬ StronglySorted source_lt utxos
   ↔ IsSortedAndUniqueUTXOIDs utxos = Some false).
Proof.
  assert (Hiff : IsSortedAndUniqueUTXOIDs utxos = Some true
                 ↔ StronglySorted source_lt utxos).
  { rewrite IsSortedAndUniqueUTXOIDs_Sorted. split.
    - apply Sorted_StronglySorted, source_lt_trans.
    - apply StronglySorted_Sorted. }
  split; [done|].
  destruct (IsSortedAndUniqueUTXOIDs_total utxos) as [[] Hres].
  - split; [|congruence]. intros Hn. exfalso. by apply Hn, Hiff.
  - split; [done|]. intros _ Hs%Hiff. congruence.
Qed.

End UTXOIDs.

(** ** utils/wrappers: [Packer] *)

Module Packer.

Definition IntLen : Z := 4.

Inductive error : Type := errBadLength.

Record Packer : Type := {
  Bytes : list Z;
  Offset : Z;
  Err : option error
}.

Definition Errored (p : Packer) : bool := bool_decide (Err p ≠ None).

Definition len (bs : list Z) : Z := Z.of_nat (Datatypes.length bs).

(** Modelled from the spec: the packer is not among the sources. Status
    and edge records are "u32" and "u32 count ‖ id*", all integers
    big-endian; a read or write that does not fit the byte slice sets the
    packer's error and moves nothing. *)
Definition PackInt (p : Packer) (val : Z) : Packer :=
  if Errored p then p
  else if decide (Offset p + IntLen ≤ len (Bytes p)) then
    {| Bytes := take (Z.to_nat (Offset p)) (Bytes p)
                ++ Hashing.be_bytes 4 val
                ++ drop (Z.to_nat (Offset p + IntLen)) (Bytes p);
       Offset := Offset p + IntLen;
       Err := None |}
  else {| Bytes := Bytes p; Offset := Offset p; Err := Some errBadLength |}.

Definition UnpackInt (p : Packer) : Packer * Z :=
  if Errored p then (p, 0)
  else if decide (Offset p + IntLen ≤ len (Bytes p)) then
    ({| Bytes := Bytes p; Offset := Offset p + IntLen; Err := None |},
     Hashing.be_value
       (take (Z.to_nat IntLen) (drop (Z.to_nat (Offset p)) (Bytes p))))
  else ({| Bytes := Bytes p; Offset := Offset p; Err := Some errBadLength |},
        0).

Lemma be_value_snoc bs b :
  Hashing.be_value (bs ++ [b]) = Hashing.be_value bs * 256 + b.
Proof. unfold Hashing.be_value. by rewrite foldl_app. Qed.

Lemma be_value_be_bytes n x :
  Hashing.be_value (Hashing.be_bytes n x) = x mod 256 ^ Z.of_nat n.
Proof.
  revert x. induction n as [|n IH]; intros x.
  - simpl. by rewrite Z.mod_1_r.
  - cbn [Hashing.be_bytes]. rewrite be_value_snoc, IH.
    replace (256 ^ Z.of_nat (S n)) with (256 * 256 ^ Z.of_nat n)
      by (rewrite Nat2Z.inj_succ, Z.pow_succ_r; lia).
    rewrite Z.rem_mul_r by lia. lia.
Qed.

Lemma length_be_bytes n x : Datatypes.length (Hashing.be_bytes n x) = n.
Proof.
  revert x. induction n as [|n IH]; intros x; simpl; [done|].
  rewrite length_app, IH. simpl. lia.
Qed.

(** A [uint32] written into a fresh four-byte packer is read back. *)
Lemma UnpackInt_PackInt (val : Z) :
  0 ≤ val < 2 ^ 32 →
  let p := PackInt {| Bytes := replicate 4 0; Offset := 0; Err := None |} val in
  Err p = None ∧ Offset p = len (Bytes p) ∧
  UnpackInt {| Bytes := Bytes p; Offset := 0; Err := None |}
  = ({| Bytes := Bytes p; Offset := len (Bytes p); Err := None |}, val).
Proof.
  intros Hval. unfold PackInt, UnpackInt, Errored, len, IntLen; simpl.
  split_and!; [done | done |]. f_equal.
  pose proof (be_value_be_bytes 4 val) as Hrt.
  cbn [Hashing.be_bytes app] in Hrt. rewrite Hrt.
  change (256 ^ Z.of_nat 4) with (2 ^ 32). by apply Z.mod_small.
Qed.

End Packer.

(** ** cache: a bounded LRU cache *)

Module Cache.

Section LRU.

Context {V : Type}.

(** Modelled from the spec: the cache is not among the sources. It is "a
    bounded LRU cache": at most [Size] entries (one when [Size] is not
    positive), kept from least to most recently used; a [Put] of a new
    key into a full cache evicts the least recently used entry. *)
Record LRU : Type := {
  Size : Z;
  entries : list (ID * V)
}.

Definition capacity (c : LRU) : nat :=
  if decide (Size c ≤ 0) then 1%nat else Z.to_nat (Size c).

Fixpoint assoc (key : ID) (l : list (ID * V)) : option V :=
  match l with
  | [] => None
  | (k, v) :: l' => if decide (key = k) then Some v else assoc key l'
  end.

Definition without (key : ID) (l : list (ID * V)) : list (ID * V) :=
  filter (λ e, e.1 ≠ key) l.

Definition Put (c : LRU) (key : ID) (value : V) : LRU :=
  let rest := without key (entries c) in
  let kept := drop (Datatypes.length rest + 1 - capacity c) rest in
  {| Size := Size c; entries := kept ++ [(key, value)] |}.

Definition Get (c : LRU) (key : ID) : LRU * option V :=
  match assoc key (entries c) with
  | Some v =>
      ({| Size := Size c; entries := without key (entries c) ++ [(key, v)] |},
       Some v)
  | None => (c, None)
  end.

Definition Flush (c : LRU) : LRU := {| Size := Size c; entries := [] |}.

Lemma assoc_None key l : Forall (λ e, e.1 ≠ key) l → assoc key l = None.
Proof.
  induction 1 as [|[k v] l Hk _ IH]; simpl; [done|].
  simpl in Hk. by rewrite decide_False.
Qed.

Lemma assoc_app key l1 l2 :
  assoc key (l1 ++ l2) = match assoc key l1 with
                         | Some v => Some v
                         | None => assoc key l2
                         end.
Proof.
  induction l1 as [|[k v] l1 IH]; simpl; [done|]. by case_decide.
Qed.

Lemma without_Forall key l : Forall (λ e, e.1 ≠ key) (without key l).
Proof. apply Forall_forall. intros e [He _]%list_elem_of_filter. done. Qed.

(** What was just put is found. *)
Lemma Get_Put c key value : (Get (Put c key value) key).2 = Some value.
Proof.
  unfold Get, Put; cbn [entries]. rewrite assoc_app.
  rewrite assoc_None by apply Forall_drop, without_Forall.
  simpl. by rewrite decide_True.
Qed.

Lemma Get_Flush c key : Get (Flush c) key = (Flush c, None).
Proof. done. Qed.

End LRU.

Arguments LRU V : clear implicits.

End Cache.

(** ** snow/choices: [Status] *)

Module Choices.

(** Modelled from the spec: the package is not among the sources. A
    status is one of Unknown, Processing, Rejected, Accepted and is stored
    as a [u32]; a missing key reads as Unknown, the zero value. *)
Definition Unknown : Z := 0.
Definition Processing : Z := 1.
Definition Rejected : Z := 2.
Definition Accepted : Z := 3.

End Choices.

(** ** snow/engine/avalanche/state: the vertex state store *)

Module State.

Import Choices.

(** What the cache holds under an ID: the store keeps vertices, statuses
    and frontiers in one cache of [interface{}] values; [CachedNil] is the
    untyped [nil] put on a miss. *)
Inductive cached : Type :=
| CachedNil
| CachedVertex (bytes : list Z)
| CachedStatus (status : Z)
| CachedEdge (frontier : list ID).

(** The database is a byte-keyed key/value store; [Get] of a missing key
    is an error, here [None]. *)
Record state : Type := {
  dbCache : Cache.LRU cached;
  db : gmap (list Z) (list Z)
}.

Inductive error : Type := errDatabase.

(** [status, _ := statusIntf.(choices.Status)]: the zero value when the
    cached value is not a status. *)
Definition asStatus (statusIntf : cached) : Z :=
  match statusIntf with
  | CachedStatus status => status
  | _ => Unknown
  end.

(** The store mutates its cache on reads: every operation returns the
    store after the call. *)
Definition Status (s : state) (id : ID) : state * Z :=
  match Cache.Get (dbCache s) id with
  | (c, Some statusIntf) => ({| dbCache := c; db := db s |}, asStatus statusIntf)
  | (c, None) =>
      let miss :=
        ({| dbCache := Cache.Put c id (CachedStatus Unknown); db := db s |},
         Unknown) in
      match db s !! id with
      | Some b =>
          (* The key was in the database *)
          let '(p, v) :=
            Packer.UnpackInt
              {| Packer.Bytes := b; Packer.Offset := 0; Packer.Err := None |} in
          let status := wrap32 v in
          if bool_decide (Packer.Offset p = Packer.len b)
             && negb (Packer.Errored p)
          then ({| dbCache := Cache.Put c id (CachedStatus status);
                   db := db s |}, status)
          else miss
      | None => miss
      end
  end.

Definition SetStatus (s : state) (id : ID) (status : Z)
    : state * option error :=
  let c := Cache.Put (dbCache s) id (CachedStatus status) in
  if decide (status = Unknown) then
    ({| dbCache := c; db := delete id (db s) |}, None)
  else
    let p := Packer.PackInt
               {| Packer.Bytes := replicate 4 0; Packer.Offset := 0;
                  Packer.Err := None |}
               (wrap32 status) in
    ({| dbCache := c; db := <[id := Packer.Bytes p]> (db s) |}, None).

(** The store after its cache lost every entry (eviction, restart). *)
Definition forget (s : state) : state :=
  {| dbCache := Cache.Flush (dbCache s); db := db s |}.

Definition empty (size : Z) : state :=
  {| dbCache := {| Cache.Size := size; Cache.entries := [] |}; db := ∅ |}.

Example Status_roundtrip :
  (Status (SetStatus (empty 8) [7] Accepted).1 [7]).2 = Accepted ∧
  (Status (forget (SetStatus (empty 8) [7] Accepted).1) [7]).2 = Accepted ∧
  db (SetStatus (empty 8) [7] Accepted).1 !! [7] = Some [0; 0; 0; 3] ∧
  (Status (empty 8) [7]).2 = Unknown.
Proof. repeat split; vm_compute; reflexivity. Qed.

(** Stored bytes parse as a status exactly when there are four of them. *)
Lemma Status_from_db (s : state) (id : ID) :
  (Cache.Get (dbCache s) id).2 = None →
  (Status s id).2 =
    match db s !! id with
    | Some b =>
        if decide (Datatypes.length b = 4%nat)
        then wrap32 (Hashing.be_value b) else Unknown
    | None => Unknown
    end.
Proof.
  unfold Status. destruct (Cache.Get (dbCache s) id) as [c [v|]]; [done|].
  intros _. destruct (db s !! id) as [b|]; [|done].
  unfold Packer.UnpackInt, Packer.Errored, Packer.len, Packer.IntLen; simpl.
  destruct (decide (0 + 4 ≤ Z.of_nat (Datatypes.length b))) as [Hle|Hgt].
  - simpl. rewrite andb_true_r.
    destruct (decide (Datatypes.length b = 4%nat)) as [Hlen|Hlen].
    + rewrite bool_decide_eq_true_2 by lia. simpl.
      change (Z.to_nat 4) with 4%nat. change (Z.to_nat 0) with 0%nat.
      rewrite drop_0. by rewrite firstn_all2 by lia.
    + rewrite bool_decide_eq_false_2 by lia. done.
  - simpl. rewrite andb_false_r.
    by rewrite decide_False by lia.
Qed.

Lemma SetStatus_db (s : state) (id : ID) (status : Z) :
  status ≠ Unknown →
  db (SetStatus s id status).1 !! id
  = Some (Hashing.be_bytes 4 (wrap32 status)).
Proof.
  intros Hs. unfold SetStatus. rewrite decide_False by done.
  cbn [fst db]. by rewrite lookup_insert_eq.
Qed.

(** C5. After [SetStatus id status] with a status other than Unknown,
    [Status id] returns that status, from the cache and, once the cache
    has lost the entry, from the four bytes written to the database;
    after [SetStatus id Unknown] the database key is deleted; and
    [Status id] returns Unknown for an ID that is neither cached nor in
    the database, or whose stored bytes do not parse as a status. *)
Theorem Status_SetStatus (s : state) (id : ID) (status : Z) :
  0 ≤ status < 2 ^ 32 →
  (status ≠ Unknown →
   (Status (SetStatus s id status).1 id).2 = status ∧
   (Status (forget (SetStatus s id status).1) id).2 = status) ∧
  (status = Unknown → db (SetStatus s id status).1 !! id = None) ∧
  ((Cache.Get (dbCache s) id).2 = None →
   (db s !! id = None
    ∨ ∃ b, db s !! id = Some b ∧ Datatypes.length b ≠ 4%nat) →
   (Status s id).2 = Unknown).
Proof.
  intros Hrange. split_and!.
  - intros Hs. split.
    + unfold Status.
      assert (Hget : (Cache.Get (dbCache (SetStatus s id status).1) id).2
                     = Some (CachedStatus status)).
      { unfold SetStatus. case_decide; apply Cache.Get_Put. }
      destruct (Cache.Get _ id) as [c [v|]]; simpl in Hget; [|done].
      by injection Hget as ->.
    + rewrite Status_from_db by done.
      cbn [forget db]. rewrite SetStatus_db by done.
      rewrite decide_True by apply Packer.length_be_bytes.
      rewrite Packer.be_value_be_bytes.
      change (256 ^ Z.of_nat 4) with (2 ^ 32). unfold wrap32.
      rewrite Z.mod_mod by lia. rewrite Z.mod_mod by lia.
      by apply Z.mod_small.
  - intros ->. unfold SetStatus. rewrite decide_True by done.
    cbn [fst db]. apply lookup_delete_eq.
  - intros Hmiss Hdb. rewrite Status_from_db by done.
    destruct Hdb as [->|(b & -> & Hlen)]; [done|].
    by rewrite decide_False.
Qed.

Lemma Status_SetStatus_witness :
  (Status (SetStatus (empty 2) [7] Accepted).1 [7]).2 = Accepted ∧
  (Status (forget (SetStatus (empty 2) [7] Accepted).1) [7]).2 = Accepted ∧
  (Status (empty 2) [7]).2 = Unknown.
Proof.
  destruct (Status_SetStatus (empty 2) [7] Accepted) as (Hset & _ & Hmiss).
  - unfold Accepted. lia.
  - destruct Hset as [Hcache Hdb]; [done|].
    split_and!; [exact Hcache | exact Hdb |].
    apply Hmiss; [reflexivity | by left].
Defined.

End State.

(** ** vms/platformvm: [UnsignedAddDelegatorTx] *)

Module AddDelegator.

Definition MaxUint64 : Z := 2 ^ 64 - 1.

Inductive error : Type :=
| errNilTx
| errOutputsNotSorted
| errInvalidAmount
| errWeightTooSmall
| errDelegatorSubset
| errOverflow
| errTimestampNotBefore (currentTimestamp validatorStartTime : Z)
| errOther (msg : string).   (* an error produced outside this file *)

(** [TxError]: an error tagged temporary or permanent. *)
Inductive TxError : Type :=
| permError (err : error)
| tempError (err : error).

Definition Temporary (e : TxError) : bool :=
  match e with
  | tempError _ => true
  | permError _ => false
  end.

(** [safemath.Add64] *)
Definition Add64 (a b : Z) : error + Z :=
  if decide (a + b > MaxUint64) then inl errOverflow else inr (a + b).

(** A validator's entry; times are Unix seconds, [time.Unix(int64(Start), 0)]. *)
Record Validator : Type := {
  NodeID : ShortID;
  Start : Z;
  End : Z;
  Wght : Z
}.

Definition Validator_StartTime (v : Validator) : Z := to_int64 (Start v).
Definition Validator_EndTime (v : Validator) : Z := to_int64 (End v).

(** Modelled from the spec: [Validator.BoundedBy] is not among the
    sources. The delegation period is a subset of the period
    [[startTime, endTime]]: it starts no earlier and ends no later. *)
Definition BoundedBy (v : Validator) (startTime endTime : Z) : bool :=
  negb (bool_decide (Validator_StartTime v < startTime))
  && negb (bool_decide (endTime < Validator_EndTime v)).

Section SemanticVerify.

(** The types and operations this file uses and does not define: inputs,
    outputs, credentials and owners, the database and its versioned
    overlay, and the checks and state accessors of the VM. *)
Context {Input Output Cred Owner DB VersionDB : Type}.

Record BaseTx : Type := {
  Ins : list Input;
  Outs : list Output;
  syntacticallyVerified : bool;
  id : ID
}.

Record UnsignedAddDelegatorTx : Type := {
  Base : BaseTx;
  Vdr : Validator;
  Stake : list Output;
  RewardsOwner : Owner
}.

Record Tx : Type := {
  UnsignedTx : UnsignedAddDelegatorTx;
  Creds : list Cred
}.

Definition StartTime (tx : UnsignedAddDelegatorTx) : Z :=
  Validator_StartTime (Vdr tx).
Definition EndTime (tx : UnsignedAddDelegatorTx) : Z :=
  Validator_EndTime (Vdr tx).

Variable BaseTx_Verify : BaseTx → option error.
Variable verify_All : Validator → Owner → option error.
Variable Output_Verify : Output → option error.
Variable Output_Amount : Output → Z.
Variable IsSortedTransferableOutputs : list Output → bool.

Record VM : Type := {
  txFee : Z;
  minStake : Z;
  DJTXAssetID : ID;
  PrimaryNetworkID : ID;
  getTimestamp : DB → error + Z;
  (* [(vdr, isValidator, err)]: the validator's period when there is one *)
  isValidator : DB → ID → ShortID → error + option Validator;
  willBeValidator : DB → ID → ShortID → error + option Validator;
  semanticVerifySpend :
    DB → UnsignedAddDelegatorTx → list Input → list Output → list Cred →
    Z → ID → option TxError;
  versiondb_New : DB → VersionDB;
  consumeInputs : VersionDB → list Input → error + VersionDB;
  produceOutputs : VersionDB → ID → list Output → error + VersionDB;
  enqueueStaker : VersionDB → ID → Tx → error + VersionDB
}.

Definition set_verified (tx : UnsignedAddDelegatorTx) : UnsignedAddDelegatorTx :=
  {| Base := {| Ins := Ins (Base tx); Outs := Outs (Base tx);
                syntacticallyVerified := true; id := id (Base tx) |};
     Vdr := Vdr tx; Stake := Stake tx; RewardsOwner := RewardsOwner tx |}.

(** The loop over [tx.Stake]: every output verifies and the amounts add
    up without overflow. *)
Fixpoint totalStake (stake : list Output) (totalStakeWeight : Z) : error + Z :=
  match stake with
  | [] => inr totalStakeWeight
  | out :: rest =>
      match Output_Verify out with
      | Some err => inl err
      | None =>
          match Add64 totalStakeWeight (Output_Amount out) with
          | inl err => inl err
          | inr newWeight => totalStake rest newWeight
          end
      end
  end.

(** [Verify]: the receiver may be nil; on success the receiver caches
    that it is valid. Returns the receiver after the call and the error. *)
Definition Verify (tx : option UnsignedAddDelegatorTx) (minStake : Z)
    : option UnsignedAddDelegatorTx * option error :=
  match tx with
  | None => (None, Some errNilTx)
  | Some t =>
      if syntacticallyVerified (Base t) then (tx, None)
      else
        match BaseTx_Verify (Base t) with
        | Some err => (tx, Some err)
        | None =>
        match verify_All (Vdr t) (RewardsOwner t) with
        | Some err => (tx, Some err)
        | None =>
        match totalStake (Stake t) 0 with
        | inl err => (tx, Some err)
        | inr totalStakeWeight =>
            if negb (IsSortedTransferableOutputs (Stake t)) then
              (tx, Some errOutputsNotSorted)
            else if decide (totalStakeWeight ≠ Wght (Vdr t)) then
              (tx, Some errInvalidAmount)
            else if decide (Wght (Vdr t) < minStake) then
              (tx, Some errWeightTooSmall)
            else (Some (set_verified t), None)
        end end end
  end.

(** What [SemanticVerify] returns: the two databases and the error (the
    two callbacks are always nil). *)
Record Result : Type := {
  onCommitDB : option VersionDB;
  onAbortDB : option VersionDB;
  txError : option TxError
}.

Definition failed (e : TxError) : Result :=
  {| onCommitDB := None; onAbortDB := None; txError := Some e |}.

Definition SemanticVerify (vm : VM) (db : DB)
    (tx : option UnsignedAddDelegatorTx) (stx : Tx) : Result :=
  (* Verify the tx is well-formed *)
  match Verify tx (minStake vm) with
  | (_, Some err) => failed (permError err)
  | (None, None) => failed (permError errNilTx)
  | (Some tx, None) =>
  (* Ensure the proposed validator starts after the current timestamp *)
  match getTimestamp vm db with
  | inl err => failed (tempError err)
  | inr currentTimestamp =>
  if negb (bool_decide (currentTimestamp < StartTime tx)) then
    failed (permError (errTimestampNotBefore currentTimestamp (StartTime tx)))
  else
  (* Ensure that the period this delegator delegates is a subset of the
     time the validator validates. *)
  match isValidator vm db (PrimaryNetworkID vm) (NodeID (Vdr tx)) with
  | inl err => failed (tempError err)
  | inr vdr =>
  let subset :=
    match vdr with
    | Some vdr =>
        if negb (BoundedBy (Vdr tx) (Validator_StartTime vdr) (Validator_EndTime vdr))
        then Some (permError errDelegatorSubset) else None
    | None =>
        (* the period the validator will validate *)
        match willBeValidator vm db (PrimaryNetworkID vm) (NodeID (Vdr tx)) with
        | inl err => Some (tempError err)
        | inr None => Some (permError errDelegatorSubset)
        | inr (Some vdr) =>
            if negb (BoundedBy (Vdr tx) (Validator_StartTime vdr)
                       (Validator_EndTime vdr))
            then Some (permError errDelegatorSubset) else None
        end
    end in
  match subset with
  | Some e => failed e
  | None =>
  let outs := Outs (Base tx) ++ Stake tx in
  (* Verify the flowcheck *)
  match semanticVerifySpend vm db tx (Ins (Base tx)) outs (Creds stx)
          (txFee vm) (DJTXAssetID vm) with
  | Some err => failed err
  | None =>
  let txID := id (Base tx) in
  (* Set up the DB if this tx is committed *)
  match consumeInputs vm (versiondb_New vm db) (Ins (Base tx)) with
  | inl err => failed (tempError err)
  | inr onCommit1 =>
  match produceOutputs vm onCommit1 txID (Outs (Base tx)) with
  | inl err => failed (tempError err)
  | inr onCommit2 =>
  match enqueueStaker vm onCommit2 (PrimaryNetworkID vm) stx with
  | inl err => failed (tempError err)
  | inr onCommit =>
  (* Set up the DB if this tx is aborted *)
  match consumeInputs vm (versiondb_New vm db) (Ins (Base tx)) with
  | inl err => failed (tempError err)
  | inr onAbort1 =>
  match produceOutputs vm onAbort1 txID outs with
  | inl err => failed (tempError err)
  | inr onAbort =>
      {| onCommitDB := Some onCommit; onAbortDB := Some onAbort;
         txError := None |}
  end end end end end end end end end end.

(** *** Error disposition of [SemanticVerify] *)

Lemma failed_no_state (e : TxError) :
  onCommitDB (failed e) = None ∧ onAbortDB (failed e) = None.
Proof. done. Qed.

(** Either the result is [failed e], or it carries no error and both
    databases. *)
Lemma SemanticVerify_shape (vm : VM) (db : DB)
    (tx : option UnsignedAddDelegatorTx) (stx : Tx) :
  (∃ e, SemanticVerify vm db tx stx = failed e) ∨
  (txError (SemanticVerify vm db tx stx) = None ∧
   is_Some (onCommitDB (SemanticVerify vm db tx stx)) ∧
   is_Some (onAbortDB (SemanticVerify vm db tx stx))).
Proof.
  unfold SemanticVerify.
  repeat match goal with
         | |- context [match ?x with _ => _ end] => destruct x eqn:?
         | |- context [if ?b then _ else _] => destruct b eqn:?
         end;
    first [ left; eexists; reflexivity | right; simpl; eauto ].
Qed.

(** C8. [SemanticVerify] returns a permanent error for every rule
    violation: a syntactic failure, a chain timestamp that is not before
    the delegator's start time, a delegation period that is not within
    the period of the current validator or, failing one, of the pending
    validator. It returns a temporary error when reading the chain
    timestamp, the current validators or the pending validators fails.
    Whenever it returns an error, permanent or temporary, it returns no
    commit and no abort database; without an error it returns both. *)
Theorem SemanticVerify_error_disposition (vm : VM) (db : DB)
    (tx : option UnsignedAddDelegatorTx) (stx : Tx) :
  let r := SemanticVerify vm db tx stx in
  let node t := isValidator vm db (PrimaryNetworkID vm) (NodeID (Vdr t)) in
  let pending t := willBeValidator vm db (PrimaryNetworkID vm) (NodeID (Vdr t)) in
  let outside t vdr :=
    BoundedBy (Vdr t) (Validator_StartTime vdr) (Validator_EndTime vdr) = false in
  (∀ err, (Verify tx (minStake vm)).2 = Some err →
          txError r = Some (permError err)) ∧
  (∀ t, Verify tx (minStake vm) = (Some t, None) →
     (∀ err, getTimestamp vm db = inl err → txError r = Some (tempError err)) ∧
     (∀ now, getTimestamp vm db = inr now →
        (¬ now < StartTime t →
         txError r = Some (permError (errTimestampNotBefore now (StartTime t)))) ∧
        (now < StartTime t →
           (∀ err, node t = inl err → txError r = Some (tempError err)) ∧
           (∀ vdr, node t = inr (Some vdr) → outside t vdr →
                   txError r = Some (permError errDelegatorSubset)) ∧
           (node t = inr None →
              (∀ err, pending t = inl err →
                      txError r = Some (tempError err)) ∧
              (pending t = inr None →
               txError r = Some (permError errDelegatorSubset)) ∧
              (∀ vdr, pending t = inr (Some vdr) → outside t vdr →
                      txError r = Some (permError errDelegatorSubset)))))) ∧
  (∀ e, txError r = Some e → onCommitDB r = None ∧ onAbortDB r = None) ∧
  (txError r = None → is_Some (onCommitDB r) ∧ is_Some (onAbortDB r)).
Proof.
  intros r node pending outside. subst r node pending outside.
  split_and!.
  - intros err Herr. unfold SemanticVerify.
    destruct (Verify tx (minStake vm)) as [t' [e|]]; simpl in Herr; [|done].
    injection Herr as ->. by destruct t'.
  - intros t Hv. unfold SemanticVerify. rewrite Hv. split.
    { by intros err ->. }
    intros now ->. split.
    { intros Hnot. by rewrite bool_decide_eq_false_2. }
    intros Hlt. rewrite bool_decide_eq_true_2 by done. cbn [negb].
    split_and!.
    + by intros err ->.
    + intros vdr -> ->. done.
    + intros ->. split_and!.
      * by intros err ->.
      * by intros ->.
      * intros vdr -> ->. done.
  - intros e He.
    destruct (SemanticVerify_shape vm db tx stx) as [[e' ->]|[Hnone _]];
      [done | congruence].
  - intros Hnone.
    destruct (SemanticVerify_shape vm db tx stx) as [[e' Hf]|[_ Hdb]];
      [|done].
    rewrite Hf in Hnone. done.
Qed.

End SemanticVerify.

(** *** A small instance

    Outputs are their amounts, the database is the chain timestamp (or
    nothing, when it cannot be read), node [[1]] validates during
    [[100, 200]]. *)

Definition toy_vm : VM (Input := Z) (Output := Z) (Cred := unit)
                       (Owner := unit) (DB := option Z) (VersionDB := list Z) :=
  {| txFee := 1; minStake := 5; DJTXAssetID := [9]; PrimaryNetworkID := [0];
     getTimestamp db :=
       match db with
       | Some now => inr now
       | None => inl (errOther "closed")
       end;
     isValidator _ _ nodeID :=
       inr (if decide (nodeID = [1])
            then Some {| NodeID := [1]; Start := 100; End := 200; Wght := 50 |}
            else None);
     willBeValidator _ _ _ := inr None;
     semanticVerifySpend _ _ _ _ _ _ _ := None;
     versiondb_New _ := [];
     consumeInputs vdb ins := inr (vdb ++ ins);
     produceOutputs vdb _ outs := inr (vdb ++ outs);
     enqueueStaker vdb _ _ := inr vdb |}.

Definition toy_tx (start end_ : Z) : UnsignedAddDelegatorTx :=
  {| Base := {| Ins := [7]; Outs := [1]; syntacticallyVerified := false;
                id := [3] |};
     Vdr := {| NodeID := [1]; Start := start; End := end_; Wght := 5 |};
     Stake := [5];
     RewardsOwner := tt |}.

Definition toy_verify (db : option Z) (start end_ : Z) : Result :=
  SemanticVerify (λ _, None) (λ _ _, None) (λ _, None) (λ out, out)
    (λ _, true) toy_vm db (Some (toy_tx start end_))
    {| UnsignedTx := toy_tx start end_; Creds := [tt] |}.

Example toy_accepted :
  toy_verify (Some 50) 120 180
  = {| onCommitDB := Some [7; 1]; onAbortDB := Some [7; 1; 5];
       txError := None |}.
Proof. reflexivity. Qed.

Example toy_started :
  toy_verify (Some 150) 120 180
  = failed (permError (errTimestampNotBefore 150 120)).
Proof. reflexivity. Qed.

Example toy_not_subset :
  toy_verify (Some 50) 120 300 = failed (permError errDelegatorSubset).
Proof. reflexivity. Qed.

Example toy_unreadable :
  toy_verify None 120 180 = failed (tempError (errOther "closed")).
Proof. reflexivity. Qed.

Lemma SemanticVerify_error_disposition_witness :
  txError (toy_verify (Some 50) 120 300) = Some (permError errDelegatorSubset) ∧
  onCommitDB (toy_verify (Some 50) 120 300) = None ∧
  onAbortDB (toy_verify (Some 50) 120 300) = None.
Proof.
  destruct (SemanticVerify_error_disposition (λ _, None) (λ _ _, None)
              (λ _, None) (λ out, out) (λ _, true) toy_vm (Some 50)
              (Some (toy_tx 120 300))
              {| UnsignedTx := toy_tx 120 300; Creds := [tt] |})
    as (_ & Hrules & Hstate & _).
  destruct (Hrules (set_verified (toy_tx 120 300)) eq_refl) as [_ Hts].
  destruct (Hts 50 eq_refl) as [_ Hbefore].
  destruct Hbefore as (_ & Hsubset & _); [reflexivity|].
  pose proof (Hsubset {| NodeID := [1]; Start := 100; End := 200; Wght := 50 |}
                eq_refl eq_refl) as Herr.
  split; [exact Herr|]. by apply Hstate in Herr.
Defined.

End AddDelegator.

(** ** vms/platformvm: stake-locked outputs and spend verification *)

Module Spend.

Inductive error : Type :=
| errInvalidLocktime           (* "invalid locktime" *)
| errNestedLock                (* "shouldn't nest stakeable locks" *)
| errNoValue                   (* an output or input of amount zero *)
| errWrongNumberOfCredentials
| errMissing                   (* an input without its UTXO *)
| errNilCredential
| errFx                        (* the credential does not unlock the output *)
| errAssetIDMismatch
| errLockedFundsNotMarkedAsLocked
| errWrongLocktime
| errOverflow
| errFlowImbalance.

Inductive TxError : Type :=
| permError (err : error)
| tempError (err : error).

(** A [djtx.TransferableOut] is a [secp256k1fx.TransferOutput] or a
    [StakeableLockOut] around a transferable output; likewise for inputs. *)
Inductive TransferableOut : Type :=
| TransferOutput (Amt : Z)
| StakeableLockOut (Locktime : Z) (out : TransferableOut).

Inductive TransferableIn : Type :=
| TransferInput (Amt : Z)
| StakeableLockIn (Locktime : Z) (inp : TransferableIn).

(** [Amount()] of a lock is the embedded transferable's. *)
Fixpoint Out_Amount (o : TransferableOut) : Z :=
  match o with
  | TransferOutput amt => amt
  | StakeableLockOut _ out => Out_Amount out
  end.

Fixpoint In_Amount (i : TransferableIn) : Z :=
  match i with
  | TransferInput amt => amt
  | StakeableLockIn _ inp => In_Amount inp
  end.

(** [StakeableLockOut.Verify] and [StakeableLockIn.Verify]. The embedded
    transferable's own [Verify] requires a positive amount. *)
Definition Out_Verify (o : TransferableOut) : option error :=
  match o with
  | TransferOutput amt => if decide (amt = 0) then Some errNoValue else None
  | StakeableLockOut locktime out =>
      if decide (locktime = 0) then Some errInvalidLocktime
      else match out with
           | StakeableLockOut _ _ => Some errNestedLock
           | TransferOutput amt =>
               if decide (amt = 0) then Some errNoValue else None
           end
  end.

Definition In_Verify (i : TransferableIn) : option error :=
  match i with
  | TransferInput amt => if decide (amt = 0) then Some errNoValue else None
  | StakeableLockIn locktime inp =>
      if decide (locktime = 0) then Some errInvalidLocktime
      else match inp with
           | StakeableLockIn _ _ => Some errNestedLock
           | TransferInput amt =>
               if decide (amt = 0) then Some errNoValue else None
           end
  end.

Record UTXO : Type := { utxoAsset : ID; utxoOut : TransferableOut }.
Record TransferableInput : Type := { inAsset : ID; In : TransferableIn }.
Record TransferableOutput : Type := { outAsset : ID; Out : TransferableOut }.

(** The locktime an output is staked until; 0 when it is not a stake lock. *)
Definition locktimeOf (o : TransferableOut) : Z :=
  match o with
  | StakeableLockOut locktime _ => locktime
  | TransferOutput _ => 0
  end.

Definition isLockOut (o : TransferableOut) : bool :=
  match o with
  | StakeableLockOut _ _ => true
  | TransferOutput _ => false
  end.

(** *** Semantic spend verification

    Modelled from the spec: [semanticVerifySpendUTXOs] is not among the
    sources, only its test table is. Per the verifier's semantic phase:
    every input has its UTXO and a well-formed credential that unlocks
    it; a [StakeableLockOut] whose locktime is still ahead is consumed
    only by a [StakeableLockIn] with identical locktime; and the flow
    check, per asset and per locktime class, requires that unlocked
    outputs and the fee (fee asset only) are covered by unlocked inputs,
    and that stake-locked amounts flow only to stake-locked outputs with
    a locktime at least the input's, spare unlocked funds covering any
    stake-locked output. Sums that leave [u64] fail with Overflow. *)

Section SemanticVerifySpend.

Context {Cred : Type}.

(** The feature extension's check that a credential unlocks an output
    for an input. *)
Variable VerifyTransfer : TransferableIn → Cred → TransferableOut → bool.

Definition MaxUint64 : Z := 2 ^ 64 - 1.

Definition unwrapOut (o : TransferableOut) : TransferableOut :=
  match o with
  | StakeableLockOut _ out => out
  | TransferOutput _ => o
  end.

(** Steps 1 to 3 for one input: credential, asset, locktime, owner. *)
Definition checkInput (now : Z) (utxo : UTXO) (input : TransferableInput)
    (cred : option Cred) : option error :=
  match cred with
  | None => Some errNilCredential
  | Some c =>
      if decide (utxoAsset utxo ≠ inAsset input) then Some errAssetIDMismatch
      else
        let locktime := locktimeOf (utxoOut utxo) in
        let out := unwrapOut (utxoOut utxo) in
        match In input with
        | StakeableLockIn l inp =>
            if decide (l ≠ locktime) then Some errWrongLocktime
            else if VerifyTransfer inp c out then None else Some errFx
        | TransferInput _ as inp =>
            if decide (now < locktime) then Some errLockedFundsNotMarkedAsLocked
            else if VerifyTransfer inp c out then None else Some errFx
        end
  end.

Fixpoint firstError (results : list (option error)) : option error :=
  match results with
  | [] => None
  | Some e :: _ => Some e
  | None :: rest => firstError rest
  end.

(** An amount of an asset in a locktime class; class 0 is unlocked. *)
Record Flow : Type := { asset : ID; class : Z; amount : Z }.

(** An input is in the class of the locktime of the UTXO it consumes
    while that locktime is ahead, and unlocked from then on. *)
Definition consumedFlow (now : Z) (utxo : UTXO) (input : TransferableInput)
    : Flow :=
  let locktime := locktimeOf (utxoOut utxo) in
  {| asset := inAsset input;
     class := if decide (now < locktime) then locktime else 0;
     amount := In_Amount (In input) |}.

Definition producedFlow (output : TransferableOutput) : Flow :=
  {| asset := outAsset output;
     class := locktimeOf (Out output);
     amount := Out_Amount (Out output) |}.

Definition sumZ (l : list Z) : Z := foldr Z.add 0 l.

(** Total amount of asset [a] in the classes selected by [sel]. *)
Definition total (flows : list Flow) (a : ID) (sel : Z → bool) : Z :=
  sumZ (amount <$> filter (λ f, asset f = a ∧ sel (class f) = true) flows).

Definition unlocked (c : Z) : bool := bool_decide (c = 0).
Definition lockedUpTo (t : Z) (c : Z) : bool :=
  bool_decide (c ≠ 0) && bool_decide (c ≤ t).

(** The flow check for asset [a], with [fee] due in that asset. *)
Definition flowBalanced (consumed produced : list Flow) (a : ID) (fee : Z)
    : bool :=
  let spare := total consumed a unlocked - (total produced a unlocked + fee) in
  bool_decide (0 ≤ spare)
  && forallb (λ f, bool_decide
                (asset f = a → class f ≠ 0 →
                 total produced a (lockedUpTo (class f))
                 ≤ total consumed a (lockedUpTo (class f)) + spare))
       produced.

Definition semanticVerifySpendUTXOs (now : Z) (utxos : list UTXO)
    (ins : list TransferableInput) (outs : list TransferableOutput)
    (creds : list (option Cred)) (feeAmount : Z) (feeAssetID : ID)
    : option TxError :=
  if decide (Datatypes.length ins ≠ Datatypes.length creds) then
    Some (permError errWrongNumberOfCredentials)
  else if decide (Datatypes.length ins ≠ Datatypes.length utxos) then
    Some (permError errMissing)
  else
    match firstError (zip_with (λ ui c, checkInput now ui.1 ui.2 c)
                        (zip utxos ins) creds) with
    | Some e => Some (permError e)
    | None =>
        let consumed := zip_with (consumedFlow now) utxos ins in
        let produced := producedFlow <$> outs in
        if decide (sumZ (amount <$> consumed) > MaxUint64
                   ∨ feeAmount + sumZ (amount <$> produced) > MaxUint64)
        then Some (permError errOverflow)
        else if forallb (λ a, flowBalanced consumed produced a
                                (if decide (a = feeAssetID)
                                 then feeAmount else 0))
                  (feeAssetID :: (asset <$> consumed) ++ (asset <$> produced))
        then None
        else Some (permError errFlowImbalance)
    end.

End SemanticVerifySpend.

(** *** The table of [TestSemanticVerifySpendUTXOs]

    One asset; credentials without signatures, which unlock an output
    without owners for an input of the same amount; [now] is the clock. *)

Definition djtx : ID := [1].

Definition fx (inp : TransferableIn) (_ : unit) (out : TransferableOut) : bool :=
  bool_decide (In_Amount inp = Out_Amount out).

Definition utxoOf (out : TransferableOut) : UTXO :=
  {| utxoAsset := djtx; utxoOut := out |}.
Definition inputOf (inp : TransferableIn) : TransferableInput :=
  {| inAsset := djtx; In := inp |}.
Definition outputOf (out : TransferableOut) : TransferableOutput :=
  {| outAsset := djtx; Out := out |}.

Definition run (now : Z) (utxos : list TransferableOut)
    (ins : list TransferableIn) (outs : list TransferableOut)
    (creds : list (option unit)) (fee : Z) : option TxError :=
  semanticVerifySpendUTXOs fx now (utxoOf <$> utxos) (inputOf <$> ins)
    (outputOf <$> outs) creds fee djtx.

Definition now : Z := 1600000000.
Definition cred : option unit := Some tt.

Example spend_table :
  (* no inputs, no outputs, no fee *)
  run now [] [] [] [] 0 = None ∧
  (* no inputs, no outputs, positive fee *)
  run now [] [] [] [] 1 = Some (permError errFlowImbalance) ∧
  (* one input, no outputs, positive fee *)
  run now [TransferOutput 1] [TransferInput 1] [] [cred] 1 = None ∧
  (* wrong number of credentials *)
  run now [TransferOutput 1] [TransferInput 1] [] [] 1
    = Some (permError errWrongNumberOfCredentials) ∧
  (* wrong number of UTXOs *)
  run now [] [TransferInput 1] [] [cred] 1 = Some (permError errMissing) ∧
  (* invalid credential *)
  run now [TransferOutput 1] [TransferInput 1] [] [None] 1
    = Some (permError errNilCredential) ∧
  (* locked one input, no outputs, no fee *)
  run now [StakeableLockOut (now + 1) (TransferOutput 1)]
      [StakeableLockIn (now + 1) (TransferInput 1)] [] [cred] 0 = None ∧
  (* locked one input, no outputs, positive fee *)
  run now [StakeableLockOut (now + 1) (TransferOutput 1)]
      [StakeableLockIn (now + 1) (TransferInput 1)] [] [cred] 1
    = Some (permError errFlowImbalance) ∧
  (* one locked one unlock input, one locked output, positive fee *)
  run now [StakeableLockOut (now + 1) (TransferOutput 1); TransferOutput 1]
      [StakeableLockIn (now + 1) (TransferInput 1); TransferInput 1]
      [StakeableLockOut (now + 1) (TransferOutput 1)] [cred; cred] 1 = None ∧
  (* ..., partially locked *)
  run now [StakeableLockOut (now + 1) (TransferOutput 1); TransferOutput 2]
      [StakeableLockIn (now + 1) (TransferInput 1); TransferInput 2]
      [StakeableLockOut (now + 1) (TransferOutput 2)] [cred; cred] 1 = None.
Proof. repeat split; vm_compute; reflexivity. Qed.

(** Beyond the table: a locked amount cannot be unlocked, cannot move to
    an earlier locktime, and can move to a later one. *)
Example spend_locked_moves :
  run now [StakeableLockOut (now + 5) (TransferOutput 3)]
      [StakeableLockIn (now + 5) (TransferInput 3)]
      [TransferOutput 3] [cred] 0 = Some (permError errFlowImbalance) ∧
  run now [StakeableLockOut (now + 5) (TransferOutput 3)]
      [StakeableLockIn (now + 5) (TransferInput 3)]
      [StakeableLockOut (now + 4) (TransferOutput 3)] [cred] 0
    = Some (permError errFlowImbalance) ∧
  run now [StakeableLockOut (now + 5) (TransferOutput 3)]
      [StakeableLockIn (now + 5) (TransferInput 3)]
      [StakeableLockOut (now + 9) (TransferOutput 3)] [cred] 0 = None ∧
  run now [StakeableLockOut (now + 5) (TransferOutput 3)]
      [TransferInput 3] [] [cred] 0
    = Some (permError errLockedFundsNotMarkedAsLocked) ∧
  run now [StakeableLockOut (now + 5) (TransferOutput 3)]
      [StakeableLockIn (now + 6) (TransferInput 3)] [] [cred] 0
    = Some (permError errWrongLocktime).
Proof. repeat split; vm_compute; reflexivity. Qed.

(** *** Totals per class *)

Lemma total_cons (f : Flow) (flows : list Flow) (a : ID) (sel : Z → bool) :
  total (f :: flows) a sel
  = (if bool_decide (asset f = a) && sel (class f) then amount f else 0)
    + total flows a sel.
Proof.
  unfold total. rewrite filter_cons.
  destruct (decide (asset f = a ∧ sel (class f) = true)) as [[Ha Hs]|Hn].
  - rewrite bool_decide_eq_true_2, Hs by done. done.
  - destruct (bool_decide (asset f = a)) eqn:Ha, (sel (class f)) eqn:Hs;
      simpl; try lia.
    apply bool_decide_eq_true in Ha. by destruct Hn.
Qed.

Lemma total_nil (a : ID) (sel : Z → bool) : total [] a sel = 0.
Proof. done. Qed.

Definition nonneg (flows : list Flow) : Prop :=
  Forall (λ f, 0 ≤ amount f) flows.

Lemma total_nonneg flows a sel : nonneg flows → 0 ≤ total flows a sel.
Proof.
  induction 1 as [|f flows Hf _ IH].
  - by rewrite total_nil.
  - rewrite total_cons. destruct (_ && _); lia.
Qed.

Lemma total_mono flows a (sel1 sel2 : Z → bool) :
  nonneg flows →
  (∀ f, f ∈ flows → asset f = a → sel1 (class f) = true →
        sel2 (class f) = true) →
  total flows a sel1 ≤ total flows a sel2.
Proof.
  induction 1 as [|f flows Hf Hnn IH]; intros Hsel.
  - by rewrite !total_nil.
  - rewrite !total_cons.
    assert (total flows a sel1 ≤ total flows a sel2) as Hrest.
    { apply IH. intros g Hg. apply Hsel. by right. }
    destruct (bool_decide (asset f = a)) eqn:Ha; simpl; [|lia].
    apply bool_decide_eq_true in Ha.
    destruct (sel1 (class f)) eqn:H1.
    + rewrite (Hsel f) by (done || by left). lia.
    + destruct (sel2 (class f)); lia.
Qed.

Lemma total_absent flows a sel :
  a ∉ asset <$> flows → total flows a sel = 0.
Proof.
  induction flows as [|f flows IH]; intros Hin; [done|].
  rewrite total_cons, IH.
  - rewrite bool_decide_eq_false_2; [done|].
    intros Ha. apply Hin. rewrite fmap_cons, Ha. by left.
  - intros Hin'. apply Hin. rewrite fmap_cons. by right.
Qed.

(** A non-empty list of numbers has a largest element. *)
Lemma list_max_elem (l : list Z) :
  l ≠ [] → ∃ m, m ∈ l ∧ ∀ x, x ∈ l → x ≤ m.
Proof.
  induction l as [|x l IH]; [done|]. intros _.
  destruct l as [|y l].
  - exists x. split; [by left|]. by intros z ->%list_elem_of_singleton.
  - destruct IH as (m & Hm & Hmax); [done|].
    destruct (decide (x ≤ m)).
    + exists m. split; [by right|].
      intros z [->|Hz]%elem_of_cons; [done | by apply Hmax].
    + exists x. split; [by left|].
      intros z [->|Hz]%elem_of_cons; [done|]. specialize (Hmax z Hz). lia.
Qed.

(** The balance checked at the locktimes of the outputs holds at every
    time [t]. *)
Lemma balance_at_every_time (consumed produced : list Flow) (a : ID)
    (spare : Z) :
  nonneg consumed → nonneg produced → 0 ≤ spare →
  (∀ f, f ∈ produced → asset f = a → class f ≠ 0 →
        total produced a (lockedUpTo (class f))
        ≤ total consumed a (lockedUpTo (class f)) + spare) →
  ∀ t, total produced a (lockedUpTo t)
       ≤ total consumed a (lockedUpTo t) + spare.
Proof.
  intros Hc Hp Hspare Hbal t.
  set (cands := filter (λ f, asset f = a ∧ lockedUpTo t (class f) = true)
                  produced).
  destruct (decide (cands = [])) as [Hnil|Hne].
  - assert (total produced a (lockedUpTo t) = 0) as ->.
    { unfold total. fold cands. by rewrite Hnil. }
    pose proof (total_nonneg consumed a (lockedUpTo t) Hc). lia.
  - destruct (list_max_elem (class <$> cands)) as (m & Hm & Hmax).
    { by destruct cands. }
    apply list_elem_of_fmap in Hm as (f & -> & Hf).
    apply list_elem_of_filter in Hf as [[Hfa Hft] Hfp].
    unfold lockedUpTo in Hft.
    apply andb_true_iff in Hft as [Hf0%bool_decide_eq_true Hfle%bool_decide_eq_true].
    assert (total produced a (lockedUpTo t)
            ≤ total produced a (lockedUpTo (class f))) as Hle.
    { apply total_mono; [done|]. intros g Hg Hga Hgt.
      assert (g ∈ cands) as Hgc by (by apply list_elem_of_filter).
      specialize (Hmax (class g) ltac:(by apply list_elem_of_fmap_2)).
      unfold lockedUpTo in *.
      apply andb_true_iff in Hgt as [Hg0 _].
      rewrite Hg0. simpl. by apply bool_decide_eq_true_2. }
    assert (total consumed a (lockedUpTo (class f))
            ≤ total consumed a (lockedUpTo t)) as Hge.
    { apply total_mono; [done|]. intros g _ _. unfold lockedUpTo.
      intros [Hg0 Hgle%bool_decide_eq_true]%andb_true_iff.
      rewrite Hg0. simpl. apply bool_decide_eq_true_2. lia. }
    specialize (Hbal f Hfp Hfa Hf0). lia.
Qed.

Lemma total_elem flows a sel f :
  nonneg flows → f ∈ flows → asset f = a → sel (class f) = true →
  amount f ≤ total flows a sel.
Proof.
  induction 1 as [|g flows Hg Hnn IH]; intros Hin Ha Hs.
  - by apply elem_of_nil in Hin.
  - rewrite total_cons. apply elem_of_cons in Hin as [<-|Hin].
    + rewrite bool_decide_eq_true_2, Hs by done. simpl.
      pose proof (total_nonneg flows a sel Hnn). lia.
    + specialize (IH Hin Ha Hs). destruct (_ && _); lia.
Qed.

Lemma total_none flows a sel :
  (∀ f, f ∈ flows → asset f = a → sel (class f) = false) →
  total flows a sel = 0.
Proof.
  induction flows as [|g flows IH]; intros Hsel; [done|].
  rewrite total_cons, IH by (intros f Hf; apply Hsel; by right).
  destruct (bool_decide (asset g = a)) eqn:Ha; simpl; [|done].
  apply bool_decide_eq_true in Ha. by rewrite (Hsel g) by (done || by left).
Qed.

Section SpendFacts.

Context {Cred : Type}.
Variable VerifyTransfer : TransferableIn → Cred → TransferableOut → bool.

Lemma firstError_None (results : list (option error)) k r :
  firstError results = None → results !! k = Some r → r = None.
Proof.
  revert k. induction results as [|[e|] results IH]; intros k Hf Hk.
  - by rewrite lookup_nil in Hk.
  - done.
  - destruct k as [|k]; simpl in *; [congruence | by apply (IH k)].
Qed.

(** What a successful verification went through. *)
Lemma spend_ok_inv now utxos ins outs creds fee feeAssetID :
  semanticVerifySpendUTXOs VerifyTransfer now utxos ins outs creds fee
    feeAssetID = None →
  Datatypes.length ins = Datatypes.length creds ∧
  Datatypes.length ins = Datatypes.length utxos ∧
  firstError (zip_with (λ ui c, checkInput VerifyTransfer now ui.1 ui.2 c)
                (zip utxos ins) creds) = None ∧
  ∀ a, a ∈ feeAssetID :: (asset <$> zip_with (consumedFlow now) utxos ins)
                       ++ (asset <$> (producedFlow <$> outs)) →
       flowBalanced (zip_with (consumedFlow now) utxos ins)
         (producedFlow <$> outs) a
         (if decide (a = feeAssetID) then fee else 0) = true.
Proof.
  unfold semanticVerifySpendUTXOs.
  case_decide as Hcreds; [done|]. case_decide as Hutxos; [done|].
  destruct (firstError _) eqn:Hfirst; [done|].
  case_decide as Hover; [done|].
  destruct (forallb _ _) eqn:Hflow; [|done]. intros _.
  split_and!; [lia | lia | done |].
  intros a Ha.
  assert (Hall := proj1 (forallb_True _ _) (Is_true_true_2 _ Hflow)).
  rewrite Forall_forall in Hall. by apply Is_true_true_1, Hall.
Qed.

Lemma flowBalanced_inv consumed produced a fee :
  flowBalanced consumed produced a fee = true →
  total produced a unlocked + fee ≤ total consumed a unlocked ∧
  ∀ f, f ∈ produced → asset f = a → class f ≠ 0 →
       total produced a (lockedUpTo (class f))
       ≤ total consumed a (lockedUpTo (class f))
         + (total consumed a unlocked - (total produced a unlocked + fee)).
Proof.
  unfold flowBalanced.
  intros [Hspare%bool_decide_eq_true Hall]%andb_true_iff.
  split; [lia|]. intros f Hf Ha Hc.
  assert (Hall' := proj1 (forallb_True _ _) (Is_true_true_2 _ Hall)).
  rewrite Forall_forall in Hall'.
  specialize (Hall' f Hf). apply bool_decide_unpack in Hall'. auto.
Qed.

Lemma flowBalanced_intro consumed produced a fee :
  total produced a unlocked + fee ≤ total consumed a unlocked →
  (∀ f, f ∈ produced → asset f = a → class f ≠ 0 →
        total produced a (lockedUpTo (class f))
        ≤ total consumed a (lockedUpTo (class f))
          + (total consumed a unlocked - (total produced a unlocked + fee))) →
  flowBalanced consumed produced a fee = true.
Proof.
  intros Hunlocked Hlocked. unfold flowBalanced.
  apply andb_true_iff. split; [apply bool_decide_eq_true_2; lia|].
  apply Is_true_true_1, forallb_True, Forall_forall.
  intros f Hf. apply bool_decide_pack. by apply Hlocked.
Qed.

Lemma spend_ok_intro now utxos ins outs creds fee feeAssetID :
  Datatypes.length ins = Datatypes.length creds →
  Datatypes.length ins = Datatypes.length utxos →
  firstError (zip_with (λ ui c, checkInput VerifyTransfer now ui.1 ui.2 c)
                (zip utxos ins) creds) = None →
  sumZ (amount <$> zip_with (consumedFlow now) utxos ins) ≤ MaxUint64 →
  fee + sumZ (amount <$> (producedFlow <$> outs)) ≤ MaxUint64 →
  (∀ a, flowBalanced (zip_with (consumedFlow now) utxos ins)
          (producedFlow <$> outs) a
          (if decide (a = feeAssetID) then fee else 0) = true) →
  semanticVerifySpendUTXOs VerifyTransfer now utxos ins outs creds fee
    feeAssetID = None.
Proof.
  intros Hcreds Hutxos Hfirst Hin Hout Hflow.
  unfold semanticVerifySpendUTXOs.
  rewrite !decide_False by lia. rewrite Hfirst.
  assert (forallb
            (λ a, flowBalanced (zip_with (consumedFlow now) utxos ins)
                    (producedFlow <$> outs) a
                    (if decide (a = feeAssetID) then fee else 0))
            (feeAssetID :: (asset <$> zip_with (consumedFlow now) utxos ins)
               ++ (asset <$> (producedFlow <$> outs))) = true) as ->; [|done].
  apply Is_true_true_1, forallb_True, Forall_forall.
  intros a _. apply Is_true_true_2, Hflow.
Qed.

(** Evaluate the totals of an explicit list of flows. *)
Ltac eval_totals :=
  rewrite ?total_cons, ?total_nil; unfold unlocked, lockedUpTo; simpl;
  repeat case_decide; repeat case_bool_decide; simpl;
  first [lia | congruence | idtac].

Lemma nonneg_consumed now utxos ins :
  Forall (λ i, 0 ≤ In_Amount (In i)) ins →
  nonneg (zip_with (consumedFlow now) utxos ins).
Proof.
  intros Hins. revert utxos.
  induction Hins as [|i ins Hi _ IH]; intros [|u utxos]; simpl;
    try constructor; [done | apply IH].
Qed.

Lemma nonneg_produced outs :
  Forall (λ o, 0 ≤ Out_Amount (Out o)) outs →
  nonneg (producedFlow <$> outs).
Proof. intros H. apply Forall_fmap. by eapply Forall_impl. Qed.

(** Rule 3: a UTXO locked until a time still ahead is consumed by a
    [StakeableLockIn] with identical locktime. *)
Lemma locktime_rule now utxos ins outs creds fee feeAssetID k utxo input
    locktime out :
  semanticVerifySpendUTXOs VerifyTransfer now utxos ins outs creds fee
    feeAssetID = None →
  utxos !! k = Some utxo → ins !! k = Some input →
  utxoOut utxo = StakeableLockOut locktime out → now < locktime →
  ∃ inp, In input = StakeableLockIn locktime inp.
Proof.
  intros (Hcreds & Hutxos & Hfirst & _)%spend_ok_inv Hu Hi Hout Hnow.
  destruct (lookup_lt_is_Some_2 creds k) as [c Hc].
  { apply lookup_lt_Some in Hi. lia. }
  assert (checkInput VerifyTransfer now utxo input c = None) as Hcheck.
  { eapply firstError_None; [exact Hfirst|].
    rewrite lookup_zip_with, lookup_zip_with, Hu, Hi, Hc. done. }
  unfold checkInput in Hcheck. rewrite Hout in Hcheck. simpl in Hcheck.
  destruct c as [c|]; [|done]. case_decide; [done|].
  destruct (In input) as [amt|l inp].
  - by rewrite decide_True in Hcheck.
  - case_decide as Hl; [done|]. exists inp. f_equal.
    destruct (decide (l = locktime)); [done | contradiction].
Qed.

(** Rule 4: per asset, unlocked outputs and the fee are covered by
    unlocked inputs, and at every time [t] the stake-locked outputs
    maturing by [t] are covered by the stake-locked inputs maturing by
    [t] and the spare unlocked funds. *)
Lemma flow_rule now utxos ins outs creds fee feeAssetID a t :
  0 ≤ fee →
  Forall (λ i, 0 ≤ In_Amount (In i)) ins →
  Forall (λ o, 0 ≤ Out_Amount (Out o)) outs →
  semanticVerifySpendUTXOs VerifyTransfer now utxos ins outs creds fee
    feeAssetID = None →
  let consumed := zip_with (consumedFlow now) utxos ins in
  let produced := producedFlow <$> outs in
  let due := if decide (a = feeAssetID) then fee else 0 in
  total produced a unlocked + due ≤ total consumed a unlocked ∧
  total produced a (lockedUpTo t)
  ≤ total consumed a (lockedUpTo t)
    + (total consumed a unlocked - (total produced a unlocked + due)).
Proof.
  intros Hfee Hins Houts (_ & _ & _ & Hflow)%spend_ok_inv consumed produced due.
  pose proof (nonneg_consumed now utxos ins Hins) as Hc.
  pose proof (nonneg_produced outs Houts) as Hp.
  fold consumed in Hc, Hflow. fold produced in Hp, Hflow.
  destruct (decide (a ∈ feeAssetID :: (asset <$> consumed)
                        ++ (asset <$> produced))) as [Ha|Ha].
  - apply Hflow, flowBalanced_inv in Ha as [Hunlocked Hlocked].
    fold due in Hunlocked, Hlocked. split; [done|].
    apply balance_at_every_time; [done | done | lia | done].
  - apply not_elem_of_cons in Ha as [Hfa Ha].
    apply not_elem_of_app in Ha as [Hca Hpa].
    subst due. rewrite decide_False by done.
    rewrite !(total_absent consumed), !(total_absent produced) by done.
    lia.
Qed.

(** A consequence: when every input is stake-locked until [lock] or
    later, all of it still ahead, no fee is paid and every output that
    carries value is stake-locked until [lock] or later. *)
Lemma only_locked_inputs now utxos ins outs creds fee feeAssetID lock :
  0 ≤ now → 0 ≤ fee →
  Forall (λ i, 0 ≤ In_Amount (In i)) ins →
  Forall (λ o, 0 ≤ Out_Amount (Out o)) outs →
  semanticVerifySpendUTXOs VerifyTransfer now utxos ins outs creds fee
    feeAssetID = None →
  Forall (λ u, now < locktimeOf (utxoOut u) ∧ lock ≤ locktimeOf (utxoOut u))
    utxos →
  fee = 0 ∧
  ∀ o, o ∈ outs → 0 < Out_Amount (Out o) →
       ∃ locktime out, Out o = StakeableLockOut locktime out ∧ lock ≤ locktime.
Proof.
  intros Hnow0 Hfee Hins Houts Hok Hlocked.
  pose proof (nonneg_consumed now utxos ins Hins) as Hc.
  pose proof (nonneg_produced outs Houts) as Hp.
  assert (Hclass : ∀ f, f ∈ zip_with (consumedFlow now) utxos ins →
                        class f ≠ 0 ∧ lock ≤ class f).
  { intros f (u & i & -> & Hu & _)%elem_of_zip_with.
    rewrite Forall_forall in Hlocked. destruct (Hlocked u Hu) as [Hnow Hlock].
    unfold consumedFlow; simpl. rewrite decide_True by done. lia. }
  assert (Hnone : ∀ a, total (zip_with (consumedFlow now) utxos ins) a unlocked = 0).
  { intros a. apply total_none. intros f Hf _.
    unfold unlocked. apply bool_decide_eq_false_2. by apply Hclass. }
  split.
  - destruct (flow_rule now utxos ins outs creds fee feeAssetID feeAssetID 0
                Hfee Hins Houts Hok) as [Hunlocked _].
    rewrite decide_True, Hnone in Hunlocked by done.
    pose proof (total_nonneg (producedFlow <$> outs) feeAssetID unlocked Hp).
    lia.
  - intros o Ho Hpos.
    set (a := outAsset o).
    assert (Hof : producedFlow o ∈ producedFlow <$> outs)
      by (by apply list_elem_of_fmap_2).
    destruct (flow_rule now utxos ins outs creds fee feeAssetID a
                (locktimeOf (Out o)) Hfee Hins Houts Hok)
      as [Hunlocked Hbal].
    rewrite Hnone in Hunlocked, Hbal.
    pose proof (total_nonneg (producedFlow <$> outs) a unlocked Hp) as Hpu.
    assert (Hdue : 0 ≤ if decide (a = feeAssetID) then fee else 0)
      by (case_decide; lia).
    destruct (Out o) as [amt|locktime out] eqn:Hout.
    + (* an unlocked output of positive amount *)
      exfalso.
      pose proof (total_elem _ a unlocked (producedFlow o) Hp Hof eq_refl)
        as Hle.
      unfold producedFlow in Hle at 1 2; simpl in Hle.
      rewrite Hout in Hle; simpl in Hle, Hpos. specialize (Hle eq_refl). lia.
    + exists locktime, out. split; [done|].
      destruct (decide (lock ≤ locktime)) as [|Hlt]; [done|]. exfalso.
      simpl in Hbal.
      assert (locktime ≠ 0 → Out_Amount out
              ≤ total (producedFlow <$> outs) a (lockedUpTo locktime)) as Hle.
      { intros H0.
        pose proof (total_elem _ a (lockedUpTo locktime) (producedFlow o)
                      Hp Hof eq_refl) as Hle.
        unfold producedFlow in Hle at 1 2; simpl in Hle.
        rewrite Hout in Hle; simpl in Hle. apply Hle.
        unfold lockedUpTo. rewrite !bool_decide_eq_true_2 by (done || lia).
        done. }
      assert (total (zip_with (consumedFlow now) utxos ins) a
                (lockedUpTo locktime) = 0) as Hzero.
      { apply total_none. intros f Hf _. destruct (Hclass f Hf).
        unfold lockedUpTo. rewrite (bool_decide_eq_false_2 (_ ≤ _)) by lia.
        apply andb_false_r. }
      rewrite Hzero in Hbal. simpl in Hpos.
      destruct (decide (locktime = 0)) as [->|H0].
      * (* a lock with locktime 0 is in the unlocked class *)
        pose proof (total_elem _ a unlocked (producedFlow o) Hp Hof eq_refl)
          as Hle0.
        unfold producedFlow in Hle0 at 1 2; simpl in Hle0.
        rewrite Hout in Hle0; simpl in Hle0. specialize (Hle0 eq_refl). lia.
      * specialize (Hle H0). lia.
Qed.

(** *** A transaction whose only input is a future-locked stake *)

Definition lockedUTXO (a : ID) (locktime amt : Z) : UTXO :=
  {| utxoAsset := a; utxoOut := StakeableLockOut locktime (TransferOutput amt) |}.
Definition lockedInput (a : ID) (locktime amt : Z) : TransferableInput :=
  {| inAsset := a; In := StakeableLockIn locktime (TransferInput amt) |}.
Definition lockedOutput (a : ID) (locktime amt : Z) : TransferableOutput :=
  {| outAsset := a; Out := StakeableLockOut locktime (TransferOutput amt) |}.

Lemma locked_only_zero_fee a now locktime amt c :
  0 ≤ now < locktime → 0 ≤ amt ≤ MaxUint64 →
  VerifyTransfer (TransferInput amt) c (TransferOutput amt) = true →
  semanticVerifySpendUTXOs VerifyTransfer now [lockedUTXO a locktime amt]
    [lockedInput a locktime amt] [] [Some c] 0 a = None.
Proof.
  intros Hnow Hamt Hfx.
  apply spend_ok_intro; try done.
  - simpl. rewrite !decide_False by (by intros []). by rewrite Hfx.
  - unfold sumZ; simpl. lia.
  - intros b. apply flowBalanced_intro.
    + simpl. eval_totals.
    + intros f Hf. by apply elem_of_nil in Hf.
Qed.

Lemma locked_only_positive_fee a now locktime amt c fee outs :
  0 ≤ now < locktime → 0 ≤ amt → 0 < fee →
  Forall (λ o, 0 ≤ Out_Amount (Out o)) outs →
  semanticVerifySpendUTXOs VerifyTransfer now [lockedUTXO a locktime amt]
    [lockedInput a locktime amt] outs [Some c] fee a ≠ None.
Proof.
  intros Hnow Hamt Hfee Houts Hok.
  destruct (only_locked_inputs now [lockedUTXO a locktime amt]
              [lockedInput a locktime amt] outs [Some c] fee a locktime)
    as [Hzero _]; try done; try lia.
  - by repeat constructor.
  - repeat constructor; simpl; lia.
Qed.

Lemma locked_with_unlocked_fee a now locktime amt c fee c' :
  0 ≤ now < locktime → 0 ≤ amt → 0 < fee → fee + amt ≤ MaxUint64 →
  VerifyTransfer (TransferInput amt) c (TransferOutput amt) = true →
  VerifyTransfer (TransferInput fee) c' (TransferOutput fee) = true →
  semanticVerifySpendUTXOs VerifyTransfer now
    [lockedUTXO a locktime amt; {| utxoAsset := a; utxoOut := TransferOutput fee |}]
    [lockedInput a locktime amt; {| inAsset := a; In := TransferInput fee |}]
    [lockedOutput a locktime amt] [Some c; Some c'] fee a = None.
Proof.
  intros Hnow Hamt Hfee Hsum Hfx Hfx'.
  apply spend_ok_intro; try done.
  - simpl. rewrite !decide_False by (by intros []). rewrite Hfx.
    rewrite (decide_False (P := now < 0)) by lia. by rewrite Hfx'.
  - unfold sumZ; simpl. lia.
  - unfold sumZ; simpl. lia.
  - intros b. apply flowBalanced_intro.
    + simpl. eval_totals.
    + intros f ->%list_elem_of_singleton _ _. simpl. eval_totals.
Qed.

End SpendFacts.

(** C7. In semantic spend verification, an input that consumes a
    [StakeableLockOut] whose locktime is still ahead is valid only if it
    is a [StakeableLockIn] with identical locktime. Locked amounts flow
    only to stake-locked outputs with a locktime at least the input's:
    per asset, unlocked outputs and the fee are covered by unlocked
    inputs alone, and at every time [t] the stake-locked outputs
    maturing by [t] are covered by the stake-locked inputs maturing by
    [t] and the spare unlocked funds; so when every input is locked until
    [lock] or later, no fee is paid and every output of value is locked
    until [lock] or later. In particular a transaction whose only input
    is a future-locked stake amount verifies with zero fee, fails with
    any positive fee whatever its outputs, and verifies when the fee is
    paid from an additional unlocked input. *)
Theorem stake_locked_spend {Cred : Type}
    (VerifyTransfer : TransferableIn → Cred → TransferableOut → bool)
    (now : Z) :
  0 ≤ now →
  (∀ utxos ins outs creds fee feeAssetID,
     0 ≤ fee →
     Forall (λ i, 0 ≤ In_Amount (In i)) ins →
     Forall (λ o, 0 ≤ Out_Amount (Out o)) outs →
     semanticVerifySpendUTXOs VerifyTransfer now utxos ins outs creds fee
       feeAssetID = None →
     (∀ k utxo input locktime out,
        utxos !! k = Some utxo → ins !! k = Some input →
        utxoOut utxo = StakeableLockOut locktime out → now < locktime →
        ∃ inp, In input = StakeableLockIn locktime inp) ∧
     (∀ a t,
        let consumed := zip_with (consumedFlow now) utxos ins in
        let produced := producedFlow <$> outs in
        let due := if decide (a = feeAssetID) then fee else 0 in
        total produced a unlocked + due ≤ total consumed a unlocked ∧
        total produced a (lockedUpTo t)
        ≤ total consumed a (lockedUpTo t)
          + (total consumed a unlocked - (total produced a unlocked + due))) ∧
     (∀ lock,
        Forall (λ u, now < locktimeOf (utxoOut u)
                     ∧ lock ≤ locktimeOf (utxoOut u)) utxos →
        fee = 0 ∧
        ∀ o, o ∈ outs → 0 < Out_Amount (Out o) →
             ∃ locktime out,
               Out o = StakeableLockOut locktime out ∧ lock ≤ locktime)) ∧
  (∀ a locktime amt c,
     now < locktime → 0 ≤ amt ≤ MaxUint64 →
     VerifyTransfer (TransferInput amt) c (TransferOutput amt) = true →
     semanticVerifySpendUTXOs VerifyTransfer now [lockedUTXO a locktime amt]
       [lockedInput a locktime amt] [] [Some c] 0 a = None ∧
     (∀ fee outs,
        0 < fee → Forall (λ o, 0 ≤ Out_Amount (Out o)) outs →
        semanticVerifySpendUTXOs VerifyTransfer now
          [lockedUTXO a locktime amt] [lockedInput a locktime amt] outs
          [Some c] fee a ≠ None) ∧
     (∀ fee c',
        0 < fee → fee + amt ≤ MaxUint64 →
        VerifyTransfer (TransferInput fee) c' (TransferOutput fee) = true →
        semanticVerifySpendUTXOs VerifyTransfer now
          [lockedUTXO a locktime amt;
           {| utxoAsset := a; utxoOut := TransferOutput fee |}]
          [lockedInput a locktime amt;
           {| inAsset := a; In := TransferInput fee |}]
          [lockedOutput a locktime amt] [Some c; Some c'] fee a = None)).
Proof.
  intros Hnow. split.
  - intros utxos ins outs creds fee feeAssetID Hfee Hins Houts Hok.
    split_and!.
    + intros k utxo input locktime out. by eapply locktime_rule.
    + intros a t. by eapply flow_rule.
    + intros lock. by eapply only_locked_inputs.
  - intros a locktime amt c Hlock Hamt Hfx. split_and!.
    + by apply locked_only_zero_fee.
    + intros fee outs Hfee Houts.
      apply locked_only_positive_fee; (done || lia).
    + intros fee c' Hfee Hsum Hfx'.
      apply locked_with_unlocked_fee; (done || lia).
Qed.

(** The three rows of the test table about a locked input, and the
    locktime rule on the last of them. *)
Lemma stake_locked_spend_witness :
  run now [StakeableLockOut (now + 1) (TransferOutput 1)]
      [StakeableLockIn (now + 1) (TransferInput 1)] [] [cred] 0 = None ∧
  run now [StakeableLockOut (now + 1) (TransferOutput 1)]
      [StakeableLockIn (now + 1) (TransferInput 1)] [] [cred] 1 ≠ None ∧
  run now [StakeableLockOut (now + 1) (TransferOutput 1); TransferOutput 1]
      [StakeableLockIn (now + 1) (TransferInput 1); TransferInput 1]
      [StakeableLockOut (now + 1) (TransferOutput 1)] [cred; cred] 1 = None.
Proof.
  destruct (stake_locked_spend fx now) as [_ Hlocked].
  { unfold now. lia. }
  destruct (Hlocked djtx (now + 1) 1 tt) as (Hzero & Hfee & Hpaid).
  { lia. }
  { unfold MaxUint64. lia. }
  { reflexivity. }
  split_and!.
  - exact Hzero.
  - apply (Hfee 1 []); [lia | constructor].
  - apply (Hpaid 1 tt); [lia | unfold MaxUint64; lia | reflexivity].
Defined.

End Spend.

(** ** snow/engine/avalanche/bootstrap: the bootstrap engine

    Modelled from the spec: the engine, the job queue and the vertex
    manager are not among the sources, only the engine's tests are. The
    model follows the bootstrap engine of the specification (state,
    ancestor fetch, topological acceptance, termination) and is run
    against every scenario of the test file. Where the two disagree the
    tests decide: completion requires an empty needed set only, as
    [TestBootstrapperMissingTxDependency] asserts. Frontier discovery and
    voting come before [ForceAccepted] and are not part of it; the timing
    of retries (back-off, bounded count) is left out, a failed request is
    reissued. *)

Module Bootstrap.

Import Choices.

Record Tx : Type := {
  txID : ID;
  txDependencies : list ID
}.

Record Vertex : Type := {
  vtxID : ID;
  vtxParents : list ID;
  vtxHeight : Z;
  vtxTxs : list Tx
}.

(** What semantic verification of a transaction returns. *)
Inductive verdict : Type := Valid | PermErr | TempErr.

(** An acceptance made by the engine: what was accepted. *)
Inductive Accept : Type :=
| AcceptTx (tx : Tx)
| AcceptVtx (v : Vertex).

(** The same, by ID. *)
Inductive Decided : Type :=
| AcceptedTx (id : ID)
| AcceptedVtx (id : ID).

Definition decidedOf (a : Accept) : Decided :=
  match a with
  | AcceptTx tx => AcceptedTx (txID tx)
  | AcceptVtx v => AcceptedVtx (vtxID v)
  end.

#[local] Instance Decided_eq_dec : EqDecision Decided.
Proof. solve_decision. Defined.

(** *** The vertex store and the transaction statuses *)

Record Store : Type := {
  vertices : gmap ID Vertex;     (* vertices parsed and stored *)
  vtxStatus : gmap ID Z;         (* a missing key is Unknown *)
  txStatus : gmap ID Z;
  acceptLog : list Accept        (* acceptances, in the order made *)
}.

Definition acceptedIDs (s : Store) : list Decided := decidedOf <$> acceptLog s.

(** A parent reference to [ids.Empty] is the genesis sentinel and is
    implicitly Accepted. *)
Definition vtxStatusOf (s : Store) (id : ID) : Z :=
  if decide (id = IDs.Empty) then Accepted
  else default Unknown (vtxStatus s !! id).

Definition txStatusOf (s : Store) (id : ID) : Z :=
  default Unknown (txStatus s !! id).

Definition isDecided (status : Z) : bool :=
  bool_decide (status = Accepted) || bool_decide (status = Rejected).

Definition setVtxStatus (id : ID) (status : Z) (s : Store) : Store :=
  {| vertices := vertices s; vtxStatus := <[id := status]> (vtxStatus s);
     txStatus := txStatus s; acceptLog := acceptLog s |}.

Definition setTxStatus (id : ID) (status : Z) (s : Store) : Store :=
  {| vertices := vertices s; vtxStatus := vtxStatus s;
     txStatus := <[id := status]> (txStatus s); acceptLog := acceptLog s |}.

Definition logAccept (d : Accept) (s : Store) : Store :=
  {| vertices := vertices s; vtxStatus := vtxStatus s;
     txStatus := txStatus s; acceptLog := acceptLog s ++ [d] |}.

(** A newly parsed vertex is written to the store; it and its
    transactions go from Unknown to Processing. A vertex that is stored
    already is left as it is. *)
Definition sawTx (s : Store) (tx : Tx) : Store :=
  if decide (txStatusOf s (txID tx) = Unknown)
  then setTxStatus (txID tx) Processing s else s.

Definition storeVertex (v : Vertex) (s : Store) : Store :=
  match vertices s !! vtxID v with
  | Some _ => s
  | None =>
      let s1 :=
        {| vertices := <[vtxID v := v]> (vertices s);
           vtxStatus := vtxStatus s; txStatus := txStatus s;
           acceptLog := acceptLog s |} in
      let s2 :=
        if decide (vtxStatusOf s1 (vtxID v) = Unknown)
        then setVtxStatus (vtxID v) Processing s1 else s1 in
      foldl sawTx s2 (vtxTxs v)
  end.

(** *** Jobs

    A transaction job is ready once every dependency is decided; run on
    a Processing transaction it accepts it when every dependency is
    Accepted and verification succeeds, rejects it on a rejected
    dependency or a permanent error, and stays queued ([None]) on a
    temporary error. Run on anything else it is dropped. *)

Section Jobs.

Variable verifyTx : Tx → verdict.

Definition txReady (s : Store) (tx : Tx) : bool :=
  forallb (λ d, isDecided (txStatusOf s d)) (txDependencies tx).

Definition executeTx (tx : Tx) (s : Store) : option Store :=
  if decide (txStatusOf s (txID tx) ≠ Processing) then Some s
  else if existsb (λ d, bool_decide (txStatusOf s d = Rejected))
            (txDependencies tx)
  then Some (setTxStatus (txID tx) Rejected s)
  else match verifyTx tx with
       | Valid =>
           Some (logAccept (AcceptTx tx) (setTxStatus (txID tx) Accepted s))
       | PermErr => Some (setTxStatus (txID tx) Rejected s)
       | TempErr => None
       end.

(** One pass over the queue, in order: ready jobs run, the others stay. *)
Fixpoint txRound (queue : list Tx) (s : Store) : list Tx * Store :=
  match queue with
  | [] => ([], s)
  | tx :: rest =>
      match (if txReady s tx then executeTx tx s else None) with
      | Some s' => txRound rest s'
      | None => let '(q, s') := txRound rest s in (tx :: q, s')
      end
  end.

(** A vertex job is ready once every parent and every transaction of the
    vertex is decided; run on a Processing vertex it accepts it when all
    of them are Accepted and rejects it otherwise. *)
Definition vtxReady (s : Store) (v : Vertex) : bool :=
  forallb (λ p, isDecided (vtxStatusOf s p)) (vtxParents v)
  && forallb (λ tx, isDecided (txStatusOf s (txID tx))) (vtxTxs v).

Definition executeVtx (v : Vertex) (s : Store) : Store :=
  if decide (vtxStatusOf s (vtxID v) ≠ Processing) then s
  else if forallb (λ p, bool_decide (vtxStatusOf s p = Accepted)) (vtxParents v)
          && forallb (λ tx, bool_decide (txStatusOf s (txID tx) = Accepted))
               (vtxTxs v)
  then logAccept (AcceptVtx v) (setVtxStatus (vtxID v) Accepted s)
  else setVtxStatus (vtxID v) Rejected s.

Fixpoint vtxRound (queue : list Vertex) (s : Store) : list Vertex * Store :=
  match queue with
  | [] => ([], s)
  | v :: rest =>
      if vtxReady s v then vtxRound rest (executeVtx v s)
      else let '(q, s') := vtxRound rest s in (v :: q, s')
  end.

(** Passes are repeated until one runs no job; each running pass
    shortens the queue, so [length queue] passes are enough. *)
Fixpoint executeAll {J : Type} (round : list J → Store → list J * Store)
    (passes : nat) (queue : list J) (s : Store) : list J * Store :=
  match passes with
  | O => (queue, s)
  | S passes' =>
      let '(q, s') := round queue s in
      if decide (Datatypes.length q = Datatypes.length queue) then (q, s')
      else executeAll round passes' q s'
  end.

End Jobs.

(** *** The engine *)

Record Requests : Type := {
  outstanding : gmap (ShortID * Z) ID;   (* (peer, requestID) ↦ vertex requested *)
  RequestID : Z;                         (* uint32: the last request ID minted *)
  sent : list (ShortID * Z * ID)         (* the GetAncestors messages sent *)
}.

Record Engine : Type := {
  store : Store;
  requests : Requests;
  acceptedFrontier : list ID;
  needed : list ID;          (* required but not yet parsed *)
  VtxBlocked : list Vertex;  (* the vertex job queue *)
  TxBlocked : list Tx;       (* the transaction job queue *)
  finished : nat;            (* how many times onFinished was called *)
  bootstrapped : bool
}.

Definition MaxContainersPerMultiPut : nat := 2048.

Definition withStore (s : Store) (e : Engine) : Engine :=
  {| store := s; requests := requests e;
     acceptedFrontier := acceptedFrontier e; needed := needed e;
     VtxBlocked := VtxBlocked e; TxBlocked := TxBlocked e;
     finished := finished e; bootstrapped := bootstrapped e |}.

Definition withRequests (r : Requests) (e : Engine) : Engine :=
  {| store := store e; requests := r;
     acceptedFrontier := acceptedFrontier e; needed := needed e;
     VtxBlocked := VtxBlocked e; TxBlocked := TxBlocked e;
     finished := finished e; bootstrapped := bootstrapped e |}.

Definition withNeeded (n : list ID) (e : Engine) : Engine :=
  {| store := store e; requests := requests e;
     acceptedFrontier := acceptedFrontier e; needed := n;
     VtxBlocked := VtxBlocked e; TxBlocked := TxBlocked e;
     finished := finished e; bootstrapped := bootstrapped e |}.

Definition withFrontier (f : list ID) (e : Engine) : Engine :=
  {| store := store e; requests := requests e;
     acceptedFrontier := f; needed := needed e;
     VtxBlocked := VtxBlocked e; TxBlocked := TxBlocked e;
     finished := finished e; bootstrapped := bootstrapped e |}.

(** [needed] is a set: no ID twice. *)
Definition needVertex (id : ID) (e : Engine) : Engine :=
  if decide (id ∈ needed e) then e else withNeeded (needed e ++ [id]) e.

Definition unneedVertex (id : ID) (e : Engine) : Engine :=
  withNeeded (filter (λ x, x ≠ id) (needed e)) e.

(** Queue the jobs of a vertex: the vertex and each of its transactions,
    unless queued already. *)
Definition pushTx (queue : list Tx) (tx : Tx) : list Tx :=
  if decide (txID tx ∈ txID <$> queue) then queue else queue ++ [tx].

Definition pushJobs (v : Vertex) (e : Engine) : Engine :=
  {| store := store e; requests := requests e;
     acceptedFrontier := acceptedFrontier e; needed := needed e;
     VtxBlocked := VtxBlocked e ++ [v];
     TxBlocked := foldl pushTx (TxBlocked e) (vtxTxs v);
     finished := finished e; bootstrapped := bootstrapped e |}.

Section Engine.

(** The collaborators: the codec behind [ParseVertex], the VM's semantic
    verification, and the choice of the peer that request [n] goes to. *)
Variable parseVertex : list Z → option Vertex.
Variable verifyTx : Tx → verdict.
Variable beacon : Z → ShortID.

(** Phase 2, step 3, and the walk up the DAG: a vertex that is not stored
    is needed; a stored Processing vertex is no longer needed, gets its
    jobs queued (once) and has its parents visited. [fuel] bounds the
    number of visits. *)
Fixpoint process_loop (fuel : nat) (todo : list ID) (e : Engine) : Engine :=
  match fuel with
  | O => e
  | S fuel' =>
      match todo with
      | [] => e
      | id :: rest =>
          if decide (id = IDs.Empty) then process_loop fuel' rest e
          else
            match vertices (store e) !! id with
            | None => process_loop fuel' rest (needVertex id e)
            | Some v =>
                let e' := unneedVertex id e in
                if decide (vtxStatusOf (store e) id = Processing
                           ∧ id ∉ vtxID <$> VtxBlocked e)
                then process_loop fuel' (vtxParents v ++ rest) (pushJobs v e')
                else process_loop fuel' rest e'
            end
      end
  end.

(** Every stored vertex is expanded at most once, so the walk makes at
    most one visit per ID on [todo] and per parent reference stored. *)
Definition parentRefs (s : Store) : nat :=
  map_fold (λ _ v n, (Datatypes.length (vtxParents v) + n)%nat) O (vertices s).

Definition process (todo : list ID) (e : Engine) : Engine :=
  process_loop (Datatypes.length todo + parentRefs (store e)) todo e.

(** Mint the next request ID and send [GetAncestors] for [id]. *)
Definition sendGetAncestors (id : ID) (r : Requests) : Requests :=
  let n := wrap32 (RequestID r + 1) in
  {| outstanding := <[(beacon n, n) := id]> (outstanding r);
     RequestID := n;
     sent := sent r ++ [(beacon n, n, id)] |}.

Definition isRequested (r : Requests) (id : ID) : bool :=
  bool_decide (id ∈ (map_to_list (outstanding r)).*2).

(** Issue a request for every needed vertex that has none outstanding. *)
Definition fetch (e : Engine) : Engine :=
  withRequests
    (foldl (λ r id, if isRequested r id then r else sendGetAncestors id r)
       (requests e) (needed e))
    e.

(** Termination: once nothing is needed, run the transaction jobs, then
    the vertex jobs, and call [onFinished]; at most once. *)
Definition checkFinish (e : Engine) : Engine :=
  if bootstrapped e then e
  else if decide (needed e ≠ []) then e
  else
    let '(txs, s1) :=
      executeAll (txRound verifyTx) (Datatypes.length (TxBlocked e))
        (TxBlocked e) (store e) in
    let '(vtxs, s2) :=
      executeAll vtxRound (Datatypes.length (VtxBlocked e))
        (VtxBlocked e) s1 in
    {| store := s2; requests := requests e;
       acceptedFrontier := acceptedFrontier e; needed := needed e;
       VtxBlocked := vtxs; TxBlocked := txs;
       finished := S (finished e); bootstrapped := true |}.

Definition ForceAccepted (e : Engine) (acceptedContainerIDs : list ID) : Engine :=
  checkFinish
    (fetch (process acceptedContainerIDs
              (withFrontier acceptedContainerIDs e))).

(** Parse containers in order and store them; a container that does not
    parse drops the remainder. *)
Fixpoint parseAll (containers : list (list Z)) (s : Store) : Store :=
  match containers with
  | [] => s
  | c :: rest =>
      match parseVertex c with
      | None => s
      | Some v => parseAll rest (storeVertex v s)
      end
  end.

Definition dropRequest (vdr : ShortID) (requestID : Z) (e : Engine) : Engine :=
  withRequests
    {| outstanding := delete (vdr, requestID) (outstanding (requests e));
       RequestID := RequestID (requests e);
       sent := sent (requests e) |}
    e.

Definition reissue (id : ID) (e : Engine) : Engine :=
  withRequests (sendGetAncestors id (requests e)) e.

Definition GetAncestorsFailed (e : Engine) (vdr : ShortID) (requestID : Z)
    : Engine :=
  match outstanding (requests e) !! (vdr, requestID) with
  | None => e    (* no such request: dropped *)
  | Some id => reissue id (dropRequest vdr requestID e)
  end.

(** [MultiPut]: a response that matches no outstanding request is
    dropped. The first container must parse to the requested vertex,
    else the request is reissued; the other containers only fill the
    store. Then the walk starts from the requested vertex. *)
Definition MultiPut (e : Engine) (vdr : ShortID) (requestID : Z)
    (vtxs : list (list Z)) : Engine :=
  match outstanding (requests e) !! (vdr, requestID) with
  | None => e
  | Some neededVtxID =>
      let e1 := dropRequest vdr requestID e in
      match take MaxContainersPerMultiPut vtxs with
      | [] => reissue neededVtxID e1
      | first :: rest =>
          match parseVertex first with
          | None => reissue neededVtxID e1
          | Some vtx =>
              let e2 := withStore (parseAll rest (storeVertex vtx (store e1))) e1 in
              if decide (vtxID vtx = neededVtxID)
              then checkFinish (fetch (process [neededVtxID] e2))
              else reissue neededVtxID e2
          end
      end
  end.

(** What reaches the engine, and a run of it. *)
Inductive event : Type :=
| EvForceAccepted (acceptedContainerIDs : list ID)
| EvMultiPut (vdr : ShortID) (requestID : Z) (vtxs : list (list Z))
| EvGetAncestorsFailed (vdr : ShortID) (requestID : Z).

Definition handle (e : Engine) (ev : event) : Engine :=
  match ev with
  | EvForceAccepted ids => ForceAccepted e ids
  | EvMultiPut vdr requestID vtxs => MultiPut e vdr requestID vtxs
  | EvGetAncestorsFailed vdr requestID => GetAncestorsFailed e vdr requestID
  end.

Definition run (e : Engine) (evs : list event) : Engine := foldl handle e evs.

End Engine.

(** [Initialize] over what the node has on disk; nothing is accepted by
    the engine yet. *)
Definition Initialize (s : Store) : Engine :=
  {| store := {| vertices := vertices s; vtxStatus := vtxStatus s;
                 txStatus := txStatus s; acceptLog := [] |};
     requests := {| outstanding := ∅; RequestID := 0; sent := [] |};
     acceptedFrontier := []; needed := [];
     VtxBlocked := []; TxBlocked := [];
     finished := O; bootstrapped := false |}.

(** *** The scenarios of the test file *)

Module Scenario.

Definition peerID : ShortID := [7].
Definition beacon (_ : Z) : ShortID := peerID.
Definition verifyTx (_ : Tx) : verdict := Valid.

(** The store at start: the vertices known locally, all Processing, and
    the statuses of the transactions the VM knows. *)
Definition storeOf (known : list Vertex) (txs : list (ID * Z)) : Store :=
  {| vertices := list_to_map ((λ v, (vtxID v, v)) <$> known);
     vtxStatus := list_to_map ((λ v, (vtxID v, Processing)) <$> known);
     txStatus := list_to_map txs;
     acceptLog := [] |}.

(** [ParseVertexF]: the bytes of vertex [k] are [[k]]. *)
Definition parserOf (vtxs : list Vertex) (bytes : list Z) : option Vertex :=
  match bytes with
  | [k] => vtxs !! Z.to_nat k
  | _ => None
  end.

Definition vtxID0 : ID := [100].
Definition vtxID1 : ID := [101].
Definition vtxID2 : ID := [102].
Definition txID0 : ID := [200].
Definition txID1 : ID := [201].

Definition statuses (e : Engine) (ids : list ID) : list Z :=
  vtxStatusOf (store e) <$> ids.
Definition requestedVtxs (e : Engine) : list ID := (sent (requests e)).*2.

(** [TestBootstrapperSingleFrontier]: three vertices without parents, all
    stored. *)
Definition single : list Vertex :=
  [ {| vtxID := vtxID0; vtxParents := []; vtxHeight := 0; vtxTxs := [] |};
    {| vtxID := vtxID1; vtxParents := []; vtxHeight := 0; vtxTxs := [] |};
    {| vtxID := vtxID2; vtxParents := []; vtxHeight := 0; vtxTxs := [] |} ].

Example SingleFrontier :
  let e := ForceAccepted verifyTx beacon (Initialize (storeOf single []))
             [vtxID0; vtxID1; vtxID2] in
  finished e = 1%nat ∧
  statuses e [vtxID0; vtxID1; vtxID2] = [Accepted; Accepted; Accepted] ∧
  requestedVtxs e = [].
Proof. vm_compute. done. Qed.

(** [TestBootstrapperByzantineResponses]: the frontier is vtx1, whose
    parent vtx0 is not stored; vtx2 is unrelated. *)
Definition byzantine : list Vertex :=
  [ {| vtxID := vtxID0; vtxParents := []; vtxHeight := 0; vtxTxs := [] |};
    {| vtxID := vtxID1; vtxParents := [vtxID0]; vtxHeight := 1; vtxTxs := [] |};
    {| vtxID := vtxID2; vtxParents := []; vtxHeight := 0; vtxTxs := [] |} ].

Definition byzantine0 : Engine :=
  Initialize (storeOf (take 1 (drop 1 byzantine)) []).
Definition byzantine1 : Engine :=
  ForceAccepted verifyTx beacon byzantine0 [vtxID1].
Definition byzantine2 : Engine :=
  MultiPut (parserOf byzantine) verifyTx beacon byzantine1 peerID 1 [[2]].
Definition byzantine3 : Engine :=
  MultiPut (parserOf byzantine) verifyTx beacon byzantine2 peerID 2 [[0]; [2]].

Example ByzantineResponses :
  (* vtx0 is requested *)
  sent (requests byzantine1) = [(peerID, 1, vtxID0)] ∧
  (* the unexpected vertex: a new request for vtx0, nothing finished *)
  sent (requests byzantine2) = [(peerID, 1, vtxID0); (peerID, 2, vtxID0)] ∧
  finished byzantine2 = 0%nat ∧
  (* the expected vertex and an extra one: no new request, finished *)
  sent (requests byzantine3) = sent (requests byzantine2) ∧
  finished byzantine3 = 1%nat ∧
  statuses byzantine3 [vtxID0; vtxID1; vtxID2]
  = [Accepted; Accepted; Processing] ∧
  acceptedIDs (store byzantine3) = [AcceptedVtx vtxID0; AcceptedVtx vtxID1].
Proof. vm_compute. done. Qed.

(** [TestBootstrapperTxDependencies]: vtx1 holds tx0 and has parent vtx0,
    which holds tx1; tx1 depends on tx0. *)
Definition tx0 : Tx := {| txID := txID0; txDependencies := [] |}.
Definition tx1 : Tx := {| txID := txID1; txDependencies := [txID0] |}.

Definition txdeps : list Vertex :=
  [ {| vtxID := vtxID0; vtxParents := []; vtxHeight := 0; vtxTxs := [tx1] |};
    {| vtxID := vtxID1; vtxParents := [vtxID0]; vtxHeight := 1;
       vtxTxs := [tx0] |} ].

Definition txdeps1 : Engine :=
  ForceAccepted verifyTx beacon
    (Initialize (storeOf (drop 1 txdeps)
                   [(txID0, Processing); (txID1, Processing)]))
    [vtxID1].
Definition txdeps2 : Engine :=
  MultiPut (parserOf txdeps) verifyTx beacon txdeps1 peerID 1 [[0]].

Example TxDependencies :
  requestedVtxs txdeps1 = [vtxID0] ∧
  finished txdeps2 = 1%nat ∧
  txStatusOf (store txdeps2) <$> [txID0; txID1] = [Accepted; Accepted] ∧
  statuses txdeps2 [vtxID0; vtxID1] = [Accepted; Accepted] ∧
  acceptedIDs (store txdeps2)
  = [AcceptedTx txID0; AcceptedTx txID1;
     AcceptedVtx vtxID0; AcceptedVtx vtxID1].
Proof. vm_compute. done. Qed.

(** [TestBootstrapperMissingTxDependency]: vtx1 holds tx1, which depends
    on tx0, a transaction the node never saw; its parent vtx0 is empty. *)
Definition missing : list Vertex :=
  [ {| vtxID := vtxID0; vtxParents := []; vtxHeight := 0; vtxTxs := [] |};
    {| vtxID := vtxID1; vtxParents := [vtxID0]; vtxHeight := 1;
       vtxTxs := [tx1] |} ].

Definition missing1 : Engine :=
  ForceAccepted verifyTx beacon
    (Initialize (storeOf (drop 1 missing) [(txID1, Processing)]))
    [vtxID1].
Definition missing2 : Engine :=
  MultiPut (parserOf missing) verifyTx beacon missing1 peerID 1 [[0]].

Example MissingTxDependency :
  requestedVtxs missing1 = [vtxID0] ∧
  finished missing2 = 1%nat ∧
  txStatusOf (store missing2) <$> [txID0; txID1] = [Unknown; Processing] ∧
  statuses missing2 [vtxID0; vtxID1] = [Accepted; Processing].
Proof. vm_compute. done. Qed.

(** [TestBootstrapperIncompleteMultiPut], [TestBootstrapperFinalized] and
    [TestBootstrapperAcceptsMultiPutParents]: the chain vtx2 → vtx1 → vtx0. *)
Definition chain : list Vertex :=
  [ {| vtxID := vtxID0; vtxParents := []; vtxHeight := 0; vtxTxs := [] |};
    {| vtxID := vtxID1; vtxParents := [vtxID0]; vtxHeight := 1; vtxTxs := [] |};
    {| vtxID := vtxID2; vtxParents := [vtxID1]; vtxHeight := 2; vtxTxs := [] |} ].

Definition incomplete1 : Engine :=
  ForceAccepted verifyTx beacon (Initialize (storeOf (drop 2 chain) []))
    [vtxID2].
Definition incomplete2 : Engine :=
  MultiPut (parserOf chain) verifyTx beacon incomplete1 peerID 1 [[1]].
Definition incomplete3 : Engine :=
  MultiPut (parserOf chain) verifyTx beacon incomplete2 peerID 2 [[0]].

Example IncompleteMultiPut :
  requestedVtxs incomplete1 = [vtxID1] ∧
  requestedVtxs incomplete2 = [vtxID1; vtxID0] ∧
  bootstrapped incomplete2 = false ∧
  bootstrapped incomplete3 = true ∧
  statuses incomplete3 [vtxID0; vtxID1; vtxID2]
  = [Accepted; Accepted; Accepted].
Proof. vm_compute. done. Qed.

Definition finalized1 : Engine :=
  ForceAccepted verifyTx beacon (Initialize (storeOf [] [])) [vtxID0; vtxID1].
Definition finalized2 : Engine :=
  MultiPut (parserOf chain) verifyTx beacon finalized1 peerID 2 [[1]; [0]].
Definition finalized3 : Engine :=
  GetAncestorsFailed beacon finalized2 peerID 1.

Example Finalized :
  sent (requests finalized1) = [(peerID, 1, vtxID0); (peerID, 2, vtxID1)] ∧
  finished finalized3 = 1%nat ∧
  statuses finalized3 [vtxID0; vtxID1] = [Accepted; Accepted].
Proof. vm_compute. done. Qed.

Definition parents1 : Engine :=
  ForceAccepted verifyTx beacon (Initialize (storeOf [] [])) [vtxID2].
Definition parents2 : Engine :=
  MultiPut (parserOf chain) verifyTx beacon parents1 peerID 1 [[2]; [1]; [0]].

Example AcceptsMultiPutParents :
  requestedVtxs parents1 = [vtxID2] ∧
  (* all three accepted from the one MultiPut, oldest first, and no
     further request *)
  requestedVtxs parents2 = [vtxID2] ∧
  finished parents2 = 1%nat ∧
  statuses parents2 [vtxID0; vtxID1; vtxID2] = [Accepted; Accepted; Accepted] ∧
  acceptedIDs (store parents2)
  = [AcceptedVtx vtxID0; AcceptedVtx vtxID1; AcceptedVtx vtxID2].
Proof. vm_compute. done. Qed.

End Scenario.

(** *** Acceptance order

    The engine's acceptances, relative to the store [s0] the engine was
    initialized over: "before" means accepted when the engine started or
    earlier in the log. *)

Definition vtxBefore (s0 : Store) (log : list Accept) (id : ID) : Prop :=
  vtxStatusOf s0 id = Accepted ∨ ∃ v, AcceptVtx v ∈ log ∧ vtxID v = id.

Definition txBefore (s0 : Store) (log : list Accept) (id : ID) : Prop :=
  txStatusOf s0 id = Accepted ∨ ∃ tx, AcceptTx tx ∈ log ∧ txID tx = id.

Definition ordered (s0 : Store) (log : list Accept) (a : Accept) : Prop :=
  match a with
  | AcceptVtx v =>
      (∀ p, p ∈ vtxParents v → vtxBefore s0 log p) ∧
      (∀ tx, tx ∈ vtxTxs v → txBefore s0 log (txID tx))
  | AcceptTx tx => ∀ d, d ∈ txDependencies tx → txBefore s0 log d
  end.

Definition loggedAccepted (s : Store) (a : Accept) : Prop :=
  match a with
  | AcceptVtx v => vtxStatusOf s (vtxID v) = Accepted
  | AcceptTx tx => txStatusOf s (txID tx) = Accepted
  end.

Record StoreInv (s0 s : Store) : Prop := {
  inv_vtx : ∀ id, vtxStatusOf s id = Accepted → vtxBefore s0 (acceptLog s) id;
  inv_tx : ∀ id, txStatusOf s id = Accepted → txBefore s0 (acceptLog s) id;
  inv_logged : ∀ a, a ∈ acceptLog s → loggedAccepted s a;
  inv_nodup : NoDup (acceptedIDs s);
  inv_order : ∀ l1 a l2, acceptLog s = l1 ++ a :: l2 → ordered s0 l1 a
}.

Lemma vtxStatusOf_set id status s id' :
  vtxStatusOf (setVtxStatus id status s) id'
  = if decide (id' = IDs.Empty) then Accepted
    else if decide (id = id') then status else vtxStatusOf s id'.
Proof.
  unfold vtxStatusOf, setVtxStatus; simpl.
  case_decide; [done|]. rewrite lookup_insert. by case_decide.
Qed.

Lemma txStatusOf_set id status s id' :
  txStatusOf (setTxStatus id status s) id'
  = if decide (id = id') then status else txStatusOf s id'.
Proof.
  unfold txStatusOf, setTxStatus; simpl. rewrite lookup_insert.
  by case_decide.
Qed.

(** A change of the store that accepts nothing new, keeps what was
    accepted and leaves the log alone keeps the invariant. *)
Lemma StoreInv_same_accepted s0 s s' :
  StoreInv s0 s →
  acceptLog s' = acceptLog s →
  (∀ id, vtxStatusOf s' id = Accepted ↔ vtxStatusOf s id = Accepted) →
  (∀ id, txStatusOf s' id = Accepted ↔ txStatusOf s id = Accepted) →
  StoreInv s0 s'.
Proof.
  intros [Hv Ht Hl Hn Ho] Hlog Hvs Hts.
  split; unfold acceptedIDs in *; rewrite ?Hlog.
  - intros id Hid. by apply Hv, Hvs.
  - intros id Hid. by apply Ht, Hts.
  - intros a Ha. specialize (Hl a Ha).
    destruct a; simpl in *; [by apply Hts | by apply Hvs].
  - done.
  - done.
Qed.

Lemma StoreInv_setVtx_undecided s0 s id status :
  StoreInv s0 s → vtxStatusOf s id ≠ Accepted → status ≠ Accepted →
  StoreInv s0 (setVtxStatus id status s).
Proof.
  intros Hinv Hold Hnew. eapply StoreInv_same_accepted; [done | done | |done].
  intros id'. rewrite vtxStatusOf_set.
  destruct (decide (id' = IDs.Empty)) as [->|Hne].
  - unfold vtxStatusOf. by rewrite decide_True.
  - destruct (decide (id = id')) as [->|]; [|done].
    split; [done | by intros ?].
Qed.

Lemma StoreInv_setTx_undecided s0 s id status :
  StoreInv s0 s → txStatusOf s id ≠ Accepted → status ≠ Accepted →
  StoreInv s0 (setTxStatus id status s).
Proof.
  intros Hinv Hold Hnew. eapply StoreInv_same_accepted; [done | done | done |].
  intros id'. rewrite txStatusOf_set.
  destruct (decide (id = id')) as [->|]; [|done].
  split; [done | by intros ?].
Qed.

Lemma StoreInv_sawTx s0 s tx : StoreInv s0 s → StoreInv s0 (sawTx s tx).
Proof.
  intros Hinv. unfold sawTx. case_decide as Hu; [|done].
  apply StoreInv_setTx_undecided; [done | | done].
  rewrite Hu. done.
Qed.

Lemma StoreInv_storeVertex s0 s v :
  StoreInv s0 s → StoreInv s0 (storeVertex v s).
Proof.
  intros Hinv. unfold storeVertex.
  destruct (vertices s !! vtxID v); [done|].
  set (s1 := {| vertices := _ |}).
  assert (StoreInv s0 s1) as H1 by (by eapply StoreInv_same_accepted).
  assert (StoreInv s0 (if decide (vtxStatusOf s1 (vtxID v) = Unknown)
                       then setVtxStatus (vtxID v) Processing s1 else s1))
    as H2.
  { case_decide as Hu; [|done].
    apply StoreInv_setVtx_undecided; [done | | done]. by rewrite Hu. }
  generalize dependent (if decide (vtxStatusOf s1 (vtxID v) = Unknown)
                        then setVtxStatus (vtxID v) Processing s1 else s1).
  clear. intros s2 Hs2. revert s2 Hs2.
  induction (vtxTxs v) as [|tx txs IH]; intros s2 Hs2; simpl; [done|].
  by apply IH, StoreInv_sawTx.
Qed.

Lemma app_snoc_inv {A} (l1 l2 l : list A) (a b : A) :
  l1 ++ a :: l2 = l ++ [b] →
  (l1 = l ∧ a = b ∧ l2 = []) ∨ (∃ l2', l2 = l2' ++ [b] ∧ l = l1 ++ a :: l2').
Proof.
  destruct l2 as [|x l2 _] using rev_ind.
  - intros [-> ->]%app_inj_tail. by left.
  - rewrite app_comm_cons, app_assoc. intros [<- ->]%app_inj_tail.
    right. by exists l2.
Qed.

Lemma vtxBefore_snoc s0 log a id :
  vtxBefore s0 log id → vtxBefore s0 (log ++ [a]) id.
Proof.
  intros [H|(v & Hv & Hid)]; [by left|]. right. exists v.
  split; [|done]. apply elem_of_app. by left.
Qed.

Lemma txBefore_snoc s0 log a id :
  txBefore s0 log id → txBefore s0 (log ++ [a]) id.
Proof.
  intros [H|(tx & Htx & Hid)]; [by left|]. right. exists tx.
  split; [|done]. apply elem_of_app. by left.
Qed.

(** Accepting a Processing vertex whose parents and transactions are all
    Accepted keeps the invariant. *)
Lemma StoreInv_acceptVtx s0 s v :
  StoreInv s0 s →
  vtxStatusOf s (vtxID v) = Processing →
  (∀ p, p ∈ vtxParents v → vtxStatusOf s p = Accepted) →
  (∀ tx, tx ∈ vtxTxs v → txStatusOf s (txID tx) = Accepted) →
  StoreInv s0 (logAccept (AcceptVtx v) (setVtxStatus (vtxID v) Accepted s)).
Proof.
  intros [Hv Ht Hl Hn Ho] Hproc Hparents Htxs.
  assert (Hne : vtxID v ≠ IDs.Empty).
  { intros He. unfold vtxStatusOf in Hproc. by rewrite decide_True in Hproc. }
  assert (Hst : ∀ id, vtxStatusOf (logAccept (AcceptVtx v)
                          (setVtxStatus (vtxID v) Accepted s)) id
                      = if decide (vtxID v = id) then Accepted
                        else vtxStatusOf s id).
  { intros id. change (vtxStatusOf (logAccept _ ?s') id)
      with (vtxStatusOf s' id). rewrite vtxStatusOf_set.
    destruct (decide (id = IDs.Empty)) as [->|]; [|done].
    rewrite decide_False by done. unfold vtxStatusOf. by rewrite decide_True. }
  split; simpl.
  - intros id. rewrite Hst. case_decide as Hid.
    + intros _. right. exists v. split; [|done].
      apply elem_of_app. right. by left.
    + intros H. by apply vtxBefore_snoc, Hv.
  - intros id H. by apply txBefore_snoc, Ht.
  - intros a [Ha| ->%list_elem_of_singleton]%elem_of_app.
    + specialize (Hl a Ha). destruct a as [tx|v']; simpl in *; [done|].
      rewrite Hst. by case_decide.
    + simpl. rewrite Hst. by rewrite decide_True.
  - unfold acceptedIDs; simpl. rewrite fmap_app. apply NoDup_app.
    split_and!; [done | | apply NoDup_singleton].
    intros d (a & -> & Ha)%list_elem_of_fmap ?%list_elem_of_singleton.
    specialize (Hl a Ha). destruct a as [tx|v']; simpl in *; [done|].
    assert (vtxID v' = vtxID v) as Heq by congruence.
    rewrite Heq, Hproc in Hl. discriminate Hl.
  - intros l1 a l2 Heq. symmetry in Heq.
    apply app_snoc_inv in Heq as [(-> & -> & ->)|(l2' & -> & Hlog)].
    + split.
      * intros p Hp. by apply Hv, Hparents.
      * intros tx Htx. by apply Ht, Htxs.
    + by eapply Ho.
Qed.

Lemma StoreInv_acceptTx s0 s tx :
  StoreInv s0 s →
  txStatusOf s (txID tx) = Processing →
  (∀ d, d ∈ txDependencies tx → txStatusOf s d = Accepted) →
  StoreInv s0 (logAccept (AcceptTx tx) (setTxStatus (txID tx) Accepted s)).
Proof.
  intros [Hv Ht Hl Hn Ho] Hproc Hdeps.
  assert (Hst : ∀ id, txStatusOf (logAccept (AcceptTx tx)
                          (setTxStatus (txID tx) Accepted s)) id
                      = if decide (txID tx = id) then Accepted
                        else txStatusOf s id).
  { intros id. change (txStatusOf (logAccept _ ?s') id)
      with (txStatusOf s' id). by rewrite txStatusOf_set. }
  split; simpl.
  - intros id H. by apply vtxBefore_snoc, Hv.
  - intros id. rewrite Hst. case_decide as Hid.
    + intros _. right. exists tx. split; [|done].
      apply elem_of_app. right. by left.
    + intros H. by apply txBefore_snoc, Ht.
  - intros a [Ha| ->%list_elem_of_singleton]%elem_of_app.
    + specialize (Hl a Ha). destruct a as [tx'|v']; simpl in *; [|done].
      rewrite Hst. by case_decide.
    + simpl. rewrite Hst. by rewrite decide_True.
  - unfold acceptedIDs; simpl. rewrite fmap_app. apply NoDup_app.
    split_and!; [done | | apply NoDup_singleton].
    intros d (a & -> & Ha)%list_elem_of_fmap ?%list_elem_of_singleton.
    specialize (Hl a Ha). destruct a as [tx'|v']; simpl in *; [|done].
    assert (txID tx' = txID tx) as Heq by congruence.
    rewrite Heq, Hproc in Hl. discriminate Hl.
  - intros l1 a l2 Heq. symmetry in Heq.
    apply app_snoc_inv in Heq as [(-> & -> & ->)|(l2' & -> & Hlog)].
    + intros d Hd. by apply Ht, Hdeps.
    + by eapply Ho.
Qed.

(** *** What each operation leaves alone *)

Section EngineFacts.

Variable parseVertex : list Z → option Vertex.
Variable verifyTx : Tx → verdict.
Variable beacon : Z → ShortID.

(** The fields only [checkFinish] writes. *)
Definition control (e : Engine) : nat * bool := (finished e, bootstrapped e).

Lemma needVertex_frame id e :
  store (needVertex id e) = store e ∧
  requests (needVertex id e) = requests e ∧
  control (needVertex id e) = control e ∧
  VtxBlocked (needVertex id e) = VtxBlocked e ∧
  TxBlocked (needVertex id e) = TxBlocked e.
Proof. unfold needVertex. by case_decide. Qed.

Lemma process_loop_frame fuel : ∀ todo e,
  store (process_loop fuel todo e) = store e ∧
  requests (process_loop fuel todo e) = requests e ∧
  control (process_loop fuel todo e) = control e.
Proof.
  induction fuel as [|fuel IH]; intros todo e; [done|].
  destruct todo as [|id rest]; [done|]. simpl.
  case_decide; [apply IH|].
  destruct (vertices (store e) !! id) as [v|].
  - case_decide.
    + destruct (IH (vtxParents v ++ rest) (pushJobs v (unneedVertex id e)))
        as (-> & -> & ->). done.
    + destruct (IH rest (unneedVertex id e)) as (-> & -> & ->). done.
  - destruct (IH rest (needVertex id e)) as (-> & -> & ->).
    by destruct (needVertex_frame id e) as (-> & -> & -> & _).
Qed.

Lemma fetch_frame e :
  store (fetch beacon e) = store e ∧ needed (fetch beacon e) = needed e ∧
  control (fetch beacon e) = control e ∧
  VtxBlocked (fetch beacon e) = VtxBlocked e ∧
  TxBlocked (fetch beacon e) = TxBlocked e.
Proof. done. Qed.

Lemma checkFinish_frame e :
  needed (checkFinish verifyTx e) = needed e ∧
  requests (checkFinish verifyTx e) = requests e.
Proof.
  unfold checkFinish. destruct (bootstrapped e); [done|].
  case_decide; [done|].
  destruct (executeAll _ _ (TxBlocked e) _) as [txs s1].
  by destruct (executeAll _ _ (VtxBlocked e) _) as [vtxs s2].
Qed.

(** [onFinished] is called by [checkFinish] alone, when the engine has
    not finished yet and nothing is needed. *)
Lemma checkFinish_control e :
  (control (checkFinish verifyTx e) = control e ∧
   (bootstrapped e = true ∨ needed e ≠ [])) ∨
  (bootstrapped e = false ∧ needed e = [] ∧
   control (checkFinish verifyTx e) = (S (finished e), true)).
Proof.
  unfold checkFinish. destruct (bootstrapped e) eqn:Hb; [left; auto|].
  case_decide as Hn; [left; auto|]. right.
  destruct (executeAll _ _ (TxBlocked e) _) as [txs s1].
  destruct (executeAll _ _ (VtxBlocked e) _) as [vtxs s2].
  split_and!; [done | | done].
  by destruct (needed e).
Qed.

(** The number of [onFinished] calls follows the bootstrapped flag. *)
Definition finishedOnce (e : Engine) : Prop :=
  finished e = if bootstrapped e then 1%nat else 0%nat.

(** One event: either [onFinished] is not called, or it is called for the
    first time and nothing is needed after the event. *)
Lemma handle_control e ev :
  let e' := handle parseVertex verifyTx beacon e ev in
  control e' = control e ∨
  (bootstrapped e = false ∧ needed e' = [] ∧
   control e' = (S (finished e), true)).
Proof.
  assert (Hcf : ∀ e0, control e0 = control e →
    control (checkFinish verifyTx e0) = control e ∨
    (bootstrapped e = false ∧ needed (checkFinish verifyTx e0) = [] ∧
     control (checkFinish verifyTx e0) = (S (finished e), true))).
  { intros e0 Hc. injection Hc as Hf Hb.
    destruct (checkFinish_control e0) as [[Hsame _]|(Hb0 & Hn & Hfin)].
    - left. rewrite Hsame. unfold control. congruence.
    - right. destruct (checkFinish_frame e0) as [-> _].
      rewrite Hfin, Hf. split_and!; [congruence | done | done]. }
  destruct ev as [ids|vdr requestID vtxs|vdr requestID]; simpl.
  - unfold ForceAccepted. apply Hcf.
    destruct (fetch_frame (process ids (withFrontier ids e)))
      as (_ & _ & -> & _).
    unfold process. by destruct (process_loop_frame
      (Datatypes.length ids + parentRefs (store (withFrontier ids e)))
      ids (withFrontier ids e)) as (_ & _ & ->).
  - unfold MultiPut.
    destruct (outstanding (requests e) !! (vdr, requestID)) as [id|]; [|by left].
    destruct (take MaxContainersPerMultiPut vtxs) as [|first rest]; [by left|].
    destruct (parseVertex first) as [vtx|]; [|by left].
    case_decide; [|by left].
    apply Hcf.
    set (e2 := withStore _ _).
    destruct (fetch_frame (process [id] e2)) as (_ & _ & -> & _).
    unfold process. by destruct (process_loop_frame
      (Datatypes.length [id] + parentRefs (store e2)) [id] e2) as (_ & _ & ->).
  - unfold GetAncestorsFailed.
    by destruct (outstanding (requests e) !! (vdr, requestID)); left.
Qed.

Lemma handle_finishedOnce e ev :
  finishedOnce e → finishedOnce (handle parseVertex verifyTx beacon e ev).
Proof.
  unfold finishedOnce. intros He.
  destruct (handle_control e ev) as [Hc|(Hb & _ & Hc)];
    injection Hc as Hf Hb'.
  - by rewrite Hf, Hb'.
  - rewrite Hf, Hb', He, Hb. done.
Qed.

Lemma run_finishedOnce e evs :
  finishedOnce e → finishedOnce (run parseVertex verifyTx beacon e evs).
Proof.
  revert e. induction evs as [|ev evs IH]; intros e He; [done|].
  simpl. apply IH. by apply handle_finishedOnce.
Qed.

End EngineFacts.

(** *** The invariant along a run *)

Section OrderFacts.

Variable parseVertex : list Z → option Vertex.
Variable verifyTx : Tx → verdict.
Variable beacon : Z → ShortID.

Lemma isDecided_not_Rejected status :
  isDecided status = true → status ≠ Rejected → status = Accepted.
Proof.
  unfold isDecided.
  intros [H%bool_decide_eq_true|H%bool_decide_eq_true]%orb_true_iff; done.
Qed.

Lemma StoreInv_executeTx s0 s tx s' :
  StoreInv s0 s → txReady s tx = true → executeTx verifyTx tx s = Some s' →
  StoreInv s0 s'.
Proof.
  intros Hinv Hready. unfold executeTx.
  case_decide as Hproc; [by intros [= <-]|].
  destruct (existsb _ _) eqn:Hrej.
  - intros [= <-]. apply StoreInv_setTx_undecided; [done | | done].
    by rewrite Hproc.
  - destruct (verifyTx tx); intros [= <-].
    + apply StoreInv_acceptTx; [done | done |].
      intros d Hd. apply isDecided_not_Rejected.
      * unfold txReady in Hready.
        assert (Hall := proj1 (forallb_True _ _) (Is_true_true_2 _ Hready)).
        rewrite Forall_forall in Hall. by apply Is_true_true_1, Hall.
      * intros Hr. apply not_true_iff_false in Hrej. apply Hrej.
        apply existsb_exists. exists d. split; [by apply list_elem_of_In|].
        by apply bool_decide_eq_true_2.
    + apply StoreInv_setTx_undecided; [done | | done]. by rewrite Hproc.
Qed.

Lemma StoreInv_txRound s0 queue : ∀ s,
  StoreInv s0 s → StoreInv s0 (txRound verifyTx queue s).2.
Proof.
  induction queue as [|tx rest IH]; intros s Hinv; simpl; [done|].
  destruct (txReady s tx) eqn:Hready.
  - destruct (executeTx verifyTx tx s) as [s'|] eqn:Hexec.
    + apply IH. by eapply StoreInv_executeTx.
    + specialize (IH s Hinv). by destruct (txRound verifyTx rest s).
  - specialize (IH s Hinv). by destruct (txRound verifyTx rest s).
Qed.

Lemma StoreInv_executeVtx s0 s v :
  StoreInv s0 s → StoreInv s0 (executeVtx v s).
Proof.
  intros Hinv. unfold executeVtx.
  case_decide as Hproc; [done|].
  destruct (_ && _) eqn:Hall.
  - apply andb_true_iff in Hall as [Hp Ht].
    apply StoreInv_acceptVtx; [done | done | |].
    + intros p Hin.
      assert (Hall := proj1 (forallb_True _ _) (Is_true_true_2 _ Hp)).
      rewrite Forall_forall in Hall.
      by apply (bool_decide_unpack _), Hall.
    + intros tx Hin.
      assert (Hall := proj1 (forallb_True _ _) (Is_true_true_2 _ Ht)).
      rewrite Forall_forall in Hall.
      by apply (bool_decide_unpack _), (Hall tx).
  - apply StoreInv_setVtx_undecided; [done | | done]. by rewrite Hproc.
Qed.

Lemma StoreInv_vtxRound s0 queue : ∀ s,
  StoreInv s0 s → StoreInv s0 (vtxRound queue s).2.
Proof.
  induction queue as [|v rest IH]; intros s Hinv; simpl; [done|].
  destruct (vtxReady s v).
  - by apply IH, StoreInv_executeVtx.
  - specialize (IH s Hinv). by destruct (vtxRound rest s).
Qed.

Lemma StoreInv_executeAll {J} (round : list J → Store → list J * Store) s0 :
  (∀ queue s, StoreInv s0 s → StoreInv s0 (round queue s).2) →
  ∀ passes queue s,
    StoreInv s0 s → StoreInv s0 (executeAll round passes queue s).2.
Proof.
  intros Hround. induction passes as [|passes IH]; intros queue s Hinv;
    simpl; [done|].
  specialize (Hround queue s Hinv). destruct (round queue s) as [q s'].
  case_decide; [done|]. by apply IH.
Qed.

Lemma StoreInv_parseAll s0 containers : ∀ s,
  StoreInv s0 s → StoreInv s0 (parseAll parseVertex containers s).
Proof.
  induction containers as [|c rest IH]; intros s Hinv; simpl; [done|].
  destruct (parseVertex c); [|done]. by apply IH, StoreInv_storeVertex.
Qed.

Lemma StoreInv_checkFinish s0 e :
  StoreInv s0 (store e) → StoreInv s0 (store (checkFinish verifyTx e)).
Proof.
  intros Hinv. unfold checkFinish. destruct (bootstrapped e); [done|].
  case_decide; [done|].
  pose proof (StoreInv_executeAll (txRound verifyTx) s0
                (StoreInv_txRound s0) (Datatypes.length (TxBlocked e))
                (TxBlocked e) (store e) Hinv) as H1.
  destruct (executeAll (txRound verifyTx) _ (TxBlocked e) _) as [txs s1].
  pose proof (StoreInv_executeAll vtxRound s0 (StoreInv_vtxRound s0)
                (Datatypes.length (VtxBlocked e)) (VtxBlocked e) s1 H1) as H2.
  by destruct (executeAll vtxRound _ (VtxBlocked e) _) as [vtxs s2].
Qed.

Lemma StoreInv_handle s0 e ev :
  StoreInv s0 (store e) →
  StoreInv s0 (store (handle parseVertex verifyTx beacon e ev)).
Proof.
  intros Hinv. destruct ev as [ids|vdr requestID vtxs|vdr requestID]; simpl.
  - unfold ForceAccepted. apply StoreInv_checkFinish.
    destruct (fetch_frame beacon (process ids (withFrontier ids e))) as [-> _].
    unfold process. by destruct (process_loop_frame
      (Datatypes.length ids + parentRefs (store (withFrontier ids e)))
      ids (withFrontier ids e)) as [-> _].
  - unfold MultiPut.
    destruct (outstanding (requests e) !! (vdr, requestID)) as [id|]; [|done].
    destruct (take MaxContainersPerMultiPut vtxs) as [|first rest]; [done|].
    destruct (parseVertex first) as [vtx|]; [|done].
    assert (StoreInv s0 (parseAll parseVertex rest
                           (storeVertex vtx (store (dropRequest vdr requestID e)))))
      as Hparsed by (by apply StoreInv_parseAll, StoreInv_storeVertex).
    case_decide; [|done].
    apply StoreInv_checkFinish.
    set (e2 := withStore _ _) in *.
    destruct (fetch_frame beacon (process [id] e2)) as [-> _].
    unfold process. by destruct (process_loop_frame
      (Datatypes.length [id] + parentRefs (store e2)) [id] e2) as [-> _].
  - unfold GetAncestorsFailed.
    by destruct (outstanding (requests e) !! (vdr, requestID)).
Qed.

Lemma StoreInv_Initialize s0 : StoreInv s0 (store (Initialize s0)).
Proof.
  split; simpl.
  - intros id H. by left.
  - intros id H. by left.
  - by intros a ?%elem_of_nil.
  - constructor.
  - intros [|??] ? ? [=].
Qed.

Lemma StoreInv_run s0 evs : ∀ e,
  StoreInv s0 (store e) →
  StoreInv s0 (store (run parseVertex verifyTx beacon e evs)).
Proof.
  induction evs as [|ev evs IH]; intros e Hinv; [done|].
  simpl. by apply IH, StoreInv_handle.
Qed.

End OrderFacts.

(** C3. In every run of the engine, over any store and any sequence of
    events: each vertex and transaction is accepted at most once; every
    vertex that is Accepted was so when the engine started (the genesis
    sentinel included) or is in the engine's acceptance log; for every
    vertex in the log all its parents were accepted strictly before it;
    and for every transaction in the log all its dependencies were
    accepted strictly before it. In particular, when the chain vtx2 →
    vtx1 → vtx0 arrives in one MultiPut in reverse-height order, the
    three are accepted oldest first; and in the transaction-dependency
    test tx0 is accepted before tx1, which depends on it. *)
Theorem topological_acceptance
    (parseVertex : list Z → option Vertex) (verifyTx : Tx → verdict)
    (beacon : Z → ShortID) (s0 : Store) (evs : list event) :
  let s := store (run parseVertex verifyTx beacon (Initialize s0) evs) in
  NoDup (acceptedIDs s) ∧
  (∀ id, vtxStatusOf s id = Accepted →
         vtxStatusOf s0 id = Accepted
         ∨ ∃ v, AcceptVtx v ∈ acceptLog s ∧ vtxID v = id) ∧
  (∀ l1 v l2, acceptLog s = l1 ++ AcceptVtx v :: l2 →
     ∀ p, p ∈ vtxParents v →
          vtxStatusOf s0 p = Accepted
          ∨ ∃ v', AcceptVtx v' ∈ l1 ∧ vtxID v' = p) ∧
  (∀ l1 tx l2, acceptLog s = l1 ++ AcceptTx tx :: l2 →
     ∀ d, d ∈ txDependencies tx →
          txStatusOf s0 d = Accepted
          ∨ ∃ tx', AcceptTx tx' ∈ l1 ∧ txID tx' = d) ∧
  acceptedIDs (store Scenario.parents2)
  = [AcceptedVtx Scenario.vtxID0; AcceptedVtx Scenario.vtxID1;
     AcceptedVtx Scenario.vtxID2] ∧
  acceptedIDs (store Scenario.txdeps2)
  = [AcceptedTx Scenario.txID0; AcceptedTx Scenario.txID1;
     AcceptedVtx Scenario.vtxID0; AcceptedVtx Scenario.vtxID1].
Proof.
  intros s.
  assert (Hinv : StoreInv s0 s).
  { apply StoreInv_run, StoreInv_Initialize. }
  destruct Hinv as [Hv Ht Hl Hn Ho].
  split_and!.
  - done.
  - intros id Hid. by apply Hv.
  - intros l1 v l2 Hlog p Hp.
    destruct (Ho l1 _ l2 Hlog) as [Hparents _]. by apply Hparents.
  - intros l1 tx l2 Hlog d Hd. by apply (Ho l1 _ l2 Hlog).
  - vm_compute. done.
  - vm_compute. done.
Qed.

(** *** Request IDs *)


(** The store after a change that accepts nothing. *)
Definition sameAccepted (s s' : Store) : Prop :=
  acceptLog s' = acceptLog s ∧
  (∀ id, vtxStatusOf s' id = Accepted ↔ vtxStatusOf s id = Accepted) ∧
  (∀ id, txStatusOf s' id = Accepted ↔ txStatusOf s id = Accepted).

Lemma sameAccepted_refl s : sameAccepted s s.
Proof. done. Qed.




Section RequestFacts.

Variable parseVertex : list Z → option Vertex.
Variable verifyTx : Tx → verdict.
Variable beacon : Z → ShortID.









End RequestFacts.

(** *** Byzantine responses *)



(** *** A frontier of stored vertices without parents *)

Section FrontierFacts.

Variable verifyTx : Tx → verdict.
Variable beacon : Z → ShortID.

Lemma executeTx_vertices tx s s' :
  executeTx verifyTx tx s = Some s' →
  vtxStatus s' = vtxStatus s ∧ vertices s' = vertices s.
Proof.
  unfold executeTx. case_decide; [by intros [= <-]|].
  destruct (existsb _ _); [by intros [= <-]|].
  by destruct (verifyTx tx); intros [= <-].
Qed.

Lemma txRound_vertices queue : ∀ s,
  vtxStatus (txRound verifyTx queue s).2 = vtxStatus s ∧
  vertices (txRound verifyTx queue s).2 = vertices s.
Proof.
  induction queue as [|tx rest IH]; intros s; simpl; [done|].
  destruct (txReady s tx).
  - destruct (executeTx verifyTx tx s) as [s'|] eqn:Hexec.
    + destruct (IH s') as [-> ->]. by eapply executeTx_vertices.
    + specialize (IH s). by destruct (txRound verifyTx rest s).
  - specialize (IH s). by destruct (txRound verifyTx rest s).
Qed.

Lemma executeAll_txRound_vertices passes : ∀ queue s,
  vtxStatus (executeAll (txRound verifyTx) passes queue s).2 = vtxStatus s ∧
  vertices (executeAll (txRound verifyTx) passes queue s).2 = vertices s.
Proof.
  induction passes as [|passes IH]; intros queue s; simpl; [done|].
  pose proof (txRound_vertices queue s) as Hround.
  destruct (txRound verifyTx queue s) as [q s']. simpl in Hround.
  case_decide; [done|]. destruct (IH q s') as [-> ->]. done.
Qed.

Lemma executeVtx_txStatus v s : txStatus (executeVtx v s) = txStatus s.
Proof.
  unfold executeVtx. case_decide; [done|]. by destruct (_ && _).
Qed.

Lemma vtxRound_txStatus queue : ∀ s,
  txStatus (vtxRound queue s).2 = txStatus s.
Proof.
  induction queue as [|v rest IH]; intros s; simpl; [done|].
  destruct (vtxReady s v).
  - by rewrite IH, executeVtx_txStatus.
  - specialize (IH s). by destruct (vtxRound rest s).
Qed.

Lemma executeAll_vtxRound_txStatus passes : ∀ queue s,
  txStatus (executeAll vtxRound passes queue s).2 = txStatus s.
Proof.
  induction passes as [|passes IH]; intros queue s; simpl; [done|].
  pose proof (vtxRound_txStatus queue s) as Hround.
  destruct (vtxRound queue s) as [q s']. simpl in Hround.
  case_decide; [done|]. by rewrite IH.
Qed.

(** A vertex job changes the status of its own vertex only, and only
    when that vertex is Processing. *)
Lemma executeVtx_other v s id :
  vtxID v ≠ id ∨ vtxStatusOf s id ≠ Processing →
  vtxStatusOf (executeVtx v s) id = vtxStatusOf s id.
Proof.
  intros Hid. unfold executeVtx. case_decide as Hproc; [done|].
  assert (vtxID v ≠ id) as Hne by (destruct Hid; congruence).
  destruct (_ && _);
    [change (vtxStatusOf (logAccept _ ?s') id) with (vtxStatusOf s' id)|];
    rewrite vtxStatusOf_set; rewrite (decide_False (P := vtxID v = id)) by done;
    unfold vtxStatusOf; by case_decide.
Qed.

Lemma vtxRound_keeps queue : ∀ s id,
  vtxStatusOf s id ≠ Processing →
  vtxStatusOf (vtxRound queue s).2 id = vtxStatusOf s id.
Proof.
  induction queue as [|v rest IH]; intros s id Hid; simpl; [done|].
  destruct (vtxReady s v).
  - rewrite IH; rewrite executeVtx_other; auto.
  - specialize (IH s id Hid). by destruct (vtxRound rest s).
Qed.

Lemma executeAll_vtxRound_keeps passes : ∀ queue s id,
  vtxStatusOf s id ≠ Processing →
  vtxStatusOf (executeAll vtxRound passes queue s).2 id = vtxStatusOf s id.
Proof.
  induction passes as [|passes IH]; intros queue s id Hid; simpl; [done|].
  pose proof (vtxRound_keeps queue s id Hid) as Hround.
  destruct (vtxRound queue s) as [q s']. simpl in Hround.
  case_decide; [done|]. rewrite IH; [done|]. by rewrite Hround.
Qed.

(** One pass accepts every queued vertex that is Processing, has no
    parents and has all its transactions Accepted. *)
Lemma vtxRound_accepts queue : ∀ s v,
  NoDup (vtxID <$> queue) → v ∈ queue → vtxParents v = [] →
  vtxStatusOf s (vtxID v) = Processing →
  (∀ tx, tx ∈ vtxTxs v → txStatusOf s (txID tx) = Accepted) →
  vtxStatusOf (vtxRound queue s).2 (vtxID v) = Accepted.
Proof.
  induction queue as [|h rest IH]; intros s v Hnd Hin Hparents Hproc Htxs.
  - by apply elem_of_nil in Hin.
  - rewrite fmap_cons in Hnd. apply NoDup_cons in Hnd as [Hh Hnd].
    assert (Hready : vtxReady s v = true).
    { unfold vtxReady. rewrite Hparents; simpl.
      apply Is_true_true_1, forallb_True, Forall_forall. intros tx Htx.
      apply Is_true_true_2. unfold isDecided.
      rewrite (Htxs tx Htx). done. }
    simpl. apply elem_of_cons in Hin as [<-|Hin].
    + rewrite Hready.
      assert (vtxStatusOf (executeVtx v s) (vtxID v) = Accepted) as Hacc.
      { unfold executeVtx. rewrite decide_False by (by intros ?).
        rewrite Hparents; simpl.
        assert (forallb (λ tx, bool_decide (txStatusOf s (txID tx) = Accepted))
                  (vtxTxs v) = true) as ->.
        { apply Is_true_true_1, forallb_True, Forall_forall. intros tx Htx.
          by apply bool_decide_pack, Htxs. }
        change (vtxStatusOf (logAccept _ ?s') ?i) with (vtxStatusOf s' i).
        rewrite vtxStatusOf_set. case_decide; [done|].
        by rewrite decide_True. }
      rewrite vtxRound_keeps; [done|]. by rewrite Hacc.
    + assert (vtxID h ≠ vtxID v) as Hne.
      { intros Heq. apply Hh. rewrite Heq. by apply list_elem_of_fmap_2. }
      destruct (vtxReady s h).
      * apply IH; try done.
        -- rewrite executeVtx_other; auto.
        -- intros tx Htx. unfold txStatusOf.
           rewrite executeVtx_txStatus. by apply Htxs.
      * specialize (IH s v Hnd Hin Hparents Hproc Htxs).
        by destruct (vtxRound rest s).
Qed.

Lemma executeAll_vtxRound_accepts queue s v :
  NoDup (vtxID <$> queue) → v ∈ queue → vtxParents v = [] →
  vtxStatusOf s (vtxID v) = Processing →
  (∀ tx, tx ∈ vtxTxs v → txStatusOf s (txID tx) = Accepted) →
  vtxStatusOf (executeAll vtxRound (Datatypes.length queue) queue s).2
    (vtxID v) = Accepted.
Proof.
  intros Hnd Hin Hparents Hproc Htxs.
  destruct queue as [|h rest] eqn:Hq; [by apply elem_of_nil in Hin|].
  rewrite <- Hq in *. replace (Datatypes.length queue)
    with (S (Datatypes.length rest)) by (by rewrite Hq). simpl.
  pose proof (vtxRound_accepts queue s v Hnd Hin Hparents Hproc Htxs) as Hacc.
  destruct (vtxRound queue s) as [q s']. simpl in Hacc.
  case_decide; [done|].
  rewrite executeAll_vtxRound_keeps; [done|]. by rewrite Hacc.
Qed.

(** A stored vertex without parents, under its own ID. *)
Definition rootOf (s : Store) (id : ID) (v : Vertex) : Prop :=
  vertices s !! id = Some v ∧ vtxID v = id ∧ vtxParents v = [].

Definition rootsQueued (s : Store) (queue : list Vertex) : Prop :=
  NoDup (vtxID <$> queue) ∧ ∀ v, v ∈ queue → rootOf s (vtxID v) v.

(** The walk over stored vertices without parents needs nothing and
    queues exactly those that are Processing. *)
Lemma process_loop_roots fuel : ∀ todo e,
  (Datatypes.length todo ≤ fuel)%nat →
  needed e = [] →
  (∀ id, id ∈ todo → ∃ v, rootOf (store e) id v) →
  rootsQueued (store e) (VtxBlocked e) →
  needed (process_loop fuel todo e) = [] ∧
  rootsQueued (store e) (VtxBlocked (process_loop fuel todo e)) ∧
  (∀ id, id ∈ todo → vtxStatusOf (store e) id = Processing →
         id ∈ vtxID <$> VtxBlocked (process_loop fuel todo e)) ∧
  (∀ v, v ∈ VtxBlocked e → v ∈ VtxBlocked (process_loop fuel todo e)).
Proof.
  induction fuel as [|fuel IH]; intros todo e Hfuel Hneeded Hroots Hqueue.
  - destruct todo; [|simpl in Hfuel; lia]. simpl. split_and!; try done.
    by intros id ?%elem_of_nil.
  - destruct todo as [|id rest]; simpl.
    { split_and!; try done. by intros id ?%elem_of_nil. }
    simpl in Hfuel.
    assert (Hrest : ∀ id', id' ∈ rest → ∃ v, rootOf (store e) id' v).
    { intros id' Hin. apply Hroots. by right. }
    case_decide as Hempty.
    { destruct (IH rest e) as (Hn & Hq & Hin & Hkeep); try done; [lia|].
      split_and!; try done.
      intros id' [->|Hid']%elem_of_cons Hproc; [|by apply Hin].
      unfold vtxStatusOf in Hproc. by rewrite decide_True in Hproc. }
    destruct (Hroots id) as (v & Hv & Hvid & Hparents); [by left|].
    rewrite Hv.
    assert (Hun : needed (unneedVertex id e) = []).
    { unfold unneedVertex; simpl. by rewrite Hneeded. }
    case_decide as Hpush.
    + destruct Hpush as [Hproc Hfresh]. rewrite Hparents. simpl.
      destruct Hqueue as [Hnd Hall].
      destruct (IH rest (pushJobs v (unneedVertex id e)))
        as (Hn & Hq & Hin & Hkeep); try done; [lia | |].
      { split; simpl.
        - rewrite fmap_app. apply NoDup_app. split_and!; [done | |].
          + intros x Hx ->%list_elem_of_singleton. by rewrite Hvid in Hx.
          + apply NoDup_singleton.
        - intros v' [Hv'| ->%list_elem_of_singleton]%elem_of_app;
            [by apply Hall|]. by rewrite Hvid. }
      split_and!; try done.
      * intros id' [->|Hid']%elem_of_cons Hproc'; [|by apply Hin].
        apply list_elem_of_fmap. exists v. split; [done|].
        apply Hkeep. simpl. apply elem_of_app. right. by left.
      * intros v' Hv'. apply Hkeep. simpl. apply elem_of_app. by left.
    + destruct (IH rest (unneedVertex id e)) as (Hn & Hq & Hin & Hkeep);
        try done; [lia|].
      split_and!; try done.
      intros id' [->|Hid']%elem_of_cons Hproc'; [|by apply Hin].
      destruct (decide (id ∈ vtxID <$> VtxBlocked e)) as [Hq'|Hq'];
        [|by destruct Hpush].
      apply list_elem_of_fmap in Hq' as (v' & -> & Hv').
      apply list_elem_of_fmap_2. by apply Hkeep.
Qed.

Lemma checkFinish_runs e :
  bootstrapped e = false → needed e = [] →
  let s1 := (executeAll (txRound verifyTx) (Datatypes.length (TxBlocked e))
               (TxBlocked e) (store e)).2 in
  store (checkFinish verifyTx e)
  = (executeAll vtxRound (Datatypes.length (VtxBlocked e)) (VtxBlocked e) s1).2
  ∧ finished (checkFinish verifyTx e) = S (finished e)
  ∧ requests (checkFinish verifyTx e) = requests e.
Proof.
  intros Hb Hn. unfold checkFinish. rewrite Hb, Hn. simpl.
  destruct (executeAll (txRound verifyTx) _ (TxBlocked e) _) as [txs s1].
  by destruct (executeAll vtxRound _ (VtxBlocked e) _) as [vtxs s2].
Qed.

(** [ForceAccepted] on a fresh engine, over a frontier of stored vertices
    without parents. *)
Lemma ForceAccepted_roots (s : Store) (ids : list ID) :
  (∀ id, id ∈ ids →
     ∃ v, rootOf s id v
          ∧ (vtxStatusOf s id = Processing ∨ vtxStatusOf s id = Accepted)) →
  let e := ForceAccepted verifyTx beacon (Initialize s) ids in
  sent (requests e) = [] ∧ finished e = 1%nat ∧
  ∀ id v, id ∈ ids → vertices s !! id = Some v →
    (∀ tx, tx ∈ vtxTxs v → txStatusOf (store e) (txID tx) = Accepted) →
    vtxStatusOf (store e) id = Accepted.
Proof.
  intros Hroots e. subst e. unfold ForceAccepted.
  set (e0 := withFrontier ids (Initialize s)).
  assert (Hst : ∀ id, vtxStatusOf (store e0) id = vtxStatusOf s id) by done.
  destruct (process_loop_roots
              (Datatypes.length ids + parentRefs (store e0)) ids e0)
    as (Hneeded & [Hnd Hqueue] & Hin & _); [lia | done | | |].
  { intros id Hid. destruct (Hroots id Hid) as (v & Hv & _). by exists v. }
  { split; [constructor | by intros v ?%elem_of_nil]. }
  fold (process ids e0) in Hneeded, Hnd, Hqueue, Hin.
  destruct (process_loop_frame
              (Datatypes.length ids + parentRefs (store e0)) ids e0)
    as (Hstore & Hreqs & Hctl).
  fold (process ids e0) in Hstore, Hreqs, Hctl.
  set (e1 := process ids e0) in *.
  assert (Hfetch : fetch beacon e1 = e1).
  { unfold fetch. rewrite Hneeded. simpl. by destruct e1. }
  rewrite Hfetch.
  injection Hctl as Hfin Hboot.
  destruct (checkFinish_runs e1) as (Hfinal & Hfinished & Hrequests);
    [by rewrite Hboot | done |].
  rewrite Hfinal, Hfinished, Hrequests, Hreqs, Hfin. split_and!; [done | done |].
  intros id v Hid Hv Htxs.
  set (s1 := (executeAll (txRound verifyTx) (Datatypes.length (TxBlocked e1))
                (TxBlocked e1) (store e1)).2) in *.
  assert (Hs1 : ∀ id', vtxStatusOf s1 id' = vtxStatusOf s id').
  { intros id'. unfold vtxStatusOf, s1.
    destruct (executeAll_txRound_vertices (Datatypes.length (TxBlocked e1))
                (TxBlocked e1) (store e1)) as [-> _].
    by rewrite Hstore. }
  destruct (Hroots id Hid) as (v0 & (Hv0 & Hvid & Hparents) & [Hproc|Hacc]).
  - assert (v0 = v) as -> by congruence.
    specialize (Hin id Hid). rewrite Hst in Hin. specialize (Hin Hproc).
    apply list_elem_of_fmap in Hin as (v' & Hid' & Hv').
    destruct (Hqueue v' Hv') as (Hlook & _ & _).
    assert (v' = v) as ->.
    { rewrite <- Hid' in Hlook. simpl in Hlook. congruence. }
    rewrite <- Hvid.
    apply executeAll_vtxRound_accepts; try done.
    + by rewrite Hs1, Hvid.
    + intros tx Htx. specialize (Htxs tx Htx).
      unfold txStatusOf in *.
      by rewrite executeAll_vtxRound_txStatus in Htxs.
  - rewrite executeAll_vtxRound_keeps; rewrite Hs1, Hacc; done.
Qed.

End FrontierFacts.

(** *** A frontier that is stored already *)

(** C4, as stated, fails. A frontier vertex that is stored and has no
    parents, but holds a transaction whose dependency the node never saw,
    is not accepted: no request is sent and [onFinished] is called, with
    the vertex still Processing. This is the vertex vtx1 of
    [TestBootstrapperMissingTxDependency] without its parent. *)
Definition lonely : Vertex :=
  {| vtxID := Scenario.vtxID1; vtxParents := []; vtxHeight := 0;
     vtxTxs := [Scenario.tx1] |}.

Lemma stored_frontier_not_accepted :
  let e := ForceAccepted Scenario.verifyTx Scenario.beacon
             (Initialize (Scenario.storeOf [lonely]
                            [(Scenario.txID1, Processing)]))
             [Scenario.vtxID1] in
  sent (requests e) = [] ∧ finished e = 1%nat ∧
  vtxStatusOf (store e) Scenario.vtxID1 = Processing ∧
  vtxStatusOf (store e) Scenario.vtxID1 ≠ Accepted.
Proof. vm_compute. split_and!; done. Qed.

(** C4, amended. When [ForceAccepted] is called on a fresh engine with
    frontier IDs that are all stored locally, without parents and
    Processing (or Accepted already), the engine sends no GetAncestors
    request and calls [onFinished]; and it marks Accepted every one of
    them whose transactions are all Accepted once the transaction queue
    has run, in particular every one without transactions. *)
Theorem ForceAccepted_stored_frontier
    (verifyTx : Tx → verdict) (beacon : Z → ShortID)
    (s : Store) (ids : list ID) :
  (∀ id, id ∈ ids →
     ∃ v, rootOf s id v
          ∧ (vtxStatusOf s id = Processing ∨ vtxStatusOf s id = Accepted)) →
  let e := ForceAccepted verifyTx beacon (Initialize s) ids in
  sent (requests e) = [] ∧ finished e = 1%nat ∧
  (∀ id v, id ∈ ids → vertices s !! id = Some v →
     (∀ tx, tx ∈ vtxTxs v → txStatusOf (store e) (txID tx) = Accepted) →
     vtxStatusOf (store e) id = Accepted) ∧
  (∀ id v, id ∈ ids → vertices s !! id = Some v → vtxTxs v = [] →
     vtxStatusOf (store e) id = Accepted).
Proof.
  intros Hroots e.
  destruct (ForceAccepted_roots verifyTx beacon s ids Hroots)
    as (Hsent & Hfin & Hacc).
  split_and!; [done | done | done |].
  intros id v Hid Hv Hnone. apply (Hacc id v Hid Hv).
  rewrite Hnone. by intros tx ?%elem_of_nil.
Qed.

(** The three vertices of [TestBootstrapperSingleFrontier]. *)
Lemma ForceAccepted_stored_frontier_witness :
  let e := ForceAccepted Scenario.verifyTx Scenario.beacon
             (Initialize (Scenario.storeOf Scenario.single []))
             [Scenario.vtxID0; Scenario.vtxID1; Scenario.vtxID2] in
  sent (requests e) = [] ∧ finished e = 1%nat ∧
  vtxStatusOf (store e) Scenario.vtxID0 = Accepted ∧
  vtxStatusOf (store e) Scenario.vtxID1 = Accepted ∧
  vtxStatusOf (store e) Scenario.vtxID2 = Accepted.
Proof.
  intros e.
  destruct (ForceAccepted_stored_frontier Scenario.verifyTx Scenario.beacon
              (Scenario.storeOf Scenario.single [])
              [Scenario.vtxID0; Scenario.vtxID1; Scenario.vtxID2])
    as (Hsent & Hfin & _ & Hacc).
  - intros id Hid.
    apply elem_of_cons in Hid as [->|Hid];
      [|apply elem_of_cons in Hid as [->|Hid];
        [|apply list_elem_of_singleton in Hid as ->]].
    + eexists. split; [split_and!; [vm_compute; reflexivity | done | done]|].
      left. vm_compute. reflexivity.
    + eexists. split; [split_and!; [vm_compute; reflexivity | done | done]|].
      left. vm_compute. reflexivity.
    + eexists. split; [split_and!; [vm_compute; reflexivity | done | done]|].
      left. vm_compute. reflexivity.
  - split_and!; [exact Hsent | exact Hfin | | |].
    + eapply Hacc; [by left | vm_compute; reflexivity | done].
    + eapply Hacc; [by right; left | vm_compute; reflexivity | done].
    + eapply Hacc; [by right; right; left | vm_compute; reflexivity | done].
Defined.

(** *** Completion *)

(** C2, as stated, fails: in [TestBootstrapperMissingTxDependency] the
    frontier passed to [ForceAccepted] is vtx1; after vtx0 arrives
    nothing is needed and [onFinished] is called, while vtx1 is still
    Processing, its transaction waiting for one the node never saw. *)
Lemma onFinished_while_frontier_Processing :
  acceptedFrontier Scenario.missing2 = [Scenario.vtxID1] ∧
  needed Scenario.missing2 = [] ∧
  finished Scenario.missing2 = 1%nat ∧
  vtxStatusOf (store Scenario.missing2) Scenario.vtxID1 = Processing ∧
  ¬ (vtxStatusOf (store Scenario.missing2) Scenario.vtxID1 = Accepted
     ∨ vtxStatusOf (store Scenario.missing2) Scenario.vtxID1 = Rejected).
Proof. vm_compute. split_and!; try done. by intros [|]. Qed.

(** C2, amended. In every run of the engine [onFinished] is called at
    most once, the bootstrapped flag telling whether it was; an event
    calls it only if it was not called before, and then nothing is
    needed after the event; and [ForceAccepted] does call it whenever it
    leaves nothing needed. Frontier vertices may still be Processing at
    that point. *)
Theorem onFinished_at_most_once
    (parseVertex : list Z → option Vertex) (verifyTx : Tx → verdict)
    (beacon : Z → ShortID) (s : Store) (evs : list event) :
  let e := run parseVertex verifyTx beacon (Initialize s) evs in
  (finished e ≤ 1)%nat ∧
  (finished e = 1%nat ↔ bootstrapped e = true) ∧
  ∀ ev,
    let e' := handle parseVertex verifyTx beacon e ev in
    (finished e' = finished e
     ∨ (finished e = 0%nat ∧ finished e' = 1%nat ∧ needed e' = [])) ∧
    (∀ ids, ev = EvForceAccepted ids → needed e' = [] →
            finished e' = 1%nat).
Proof.
  intros e.
  assert (He : finishedOnce e) by (by apply run_finishedOnce).
  split_and!.
  - rewrite He. destruct (bootstrapped e); lia.
  - rewrite He. by destruct (bootstrapped e).
  - intros ev e'. split.
    + destruct (handle_control parseVertex verifyTx beacon e ev)
        as [Hc|(Hb & Hn & Hc)]; injection Hc as Hf _.
      * by left.
      * right. subst e'. rewrite Hf, He, Hb. done.
    + intros ids -> Hn.
      pose proof (handle_finishedOnce parseVertex verifyTx beacon e
                    (EvForceAccepted ids) He) as He'.
      fold e' in He'. rewrite He'.
      subst e'. simpl in *. unfold ForceAccepted in *.
      set (e0 := fetch beacon _) in *.
      destruct (checkFinish_control verifyTx e0)
        as [[Hsame [Hb|Hne]]|(_ & _ & Hc)].
      * assert (bootstrapped (checkFinish verifyTx e0) = true) as ->; [|done].
        unfold control in Hsame. congruence.
      * destruct (checkFinish_frame verifyTx e0) as [Hneeded _].
        by rewrite Hneeded in Hn.
      * assert (bootstrapped (checkFinish verifyTx e0) = true) as ->; [|done].
        unfold control in Hc. congruence.
Qed.

End Bootstrap.
